(** * unistore: internal-key codec, snapshot registry, quota eviction, store bootstrap

    A shallow embedding of
      - rocksdb/types.go        (ValueType, Comparator.CompareInternalKey, InternalKey)
      - raftstore snapshot manager (SnapManager: registry, ListIdleSnap,
        deleteOldIdleSnaps, DeleteSnapshot, SnapManagerBuilder.Build)
      - raftstore bootstrap     (BootstrapStore, as exercised by bootstrap_test.go)
    together with the properties the specification states about them.

    Conventions.  Go's fixed-width integers are [Z] with the wrap-around written
    out; [[]byte] is [list byte]; Go's [map] is stdpp's [gmap]; a Go function
    that can panic or return an error returns [option] or [Result]. *)

From Stdlib Require Import ZArith Lia List Ascii String Sorting.Sorted Permutation.
From Stdlib Require Strings.Byte.
From stdpp Require Import base option list gmap strings pretty.

Local Open Scope Z_scope.

(** ** Machine integers *)

Module GoInt.

Definition two64 : Z := 2 ^ 64.
Definition MaxUint64 : Z := two64 - 1.

(** Truncation of a mathematical integer to [uint64]. *)
Definition u64 (z : Z) : Z := z mod two64.

(** [uint64(x)] for [x : int64]: two's complement reinterpretation. *)
Definition uint64_of_int64 (x : Z) : Z := x mod two64.

(** The conversion [byte(v)] of an unsigned integer. *)
Definition Z_to_byte (v : Z) : Byte.byte :=
  match Byte.of_N (Z.to_N (v mod 256)) with
  | Some b => b
  | None => Byte.x00
  end.

(** The conversion [uint64(b)] of a byte. *)
Definition byte_to_Z (b : Byte.byte) : Z := Z.of_N (Byte.to_N b).

End GoInt.
Import GoInt.

(** ** encoding/binary: the fixed 64-bit codecs *)

Module Binary.

Inductive ByteOrder := LittleEndian | BigEndian.

(** [b[0] | b[1]<<8 | b[2]<<16 | ...] *)
Fixpoint le_decode (b : list Byte.byte) : Z :=
  match b with
  | [] => 0
  | x :: t => Z.lor (byte_to_Z x) (Z.shiftl (le_decode t) 8)
  end.

(** [b[0] = byte(v); b[1] = byte(v >> 8); ...] for [n] bytes. *)
Fixpoint le_encode (n : nat) (v : Z) : list Byte.byte :=
  match n with
  | O => []
  | S n' => Z_to_byte v :: le_encode n' (Z.shiftr v 8)
  end.

(** [order.Uint64(b)]: reads [b[0..7]]; the callers below always pass a
    slice of exactly eight bytes. *)
Definition Uint64 (o : ByteOrder) (b : list Byte.byte) : Z :=
  match o with
  | LittleEndian => le_decode (take 8 b)
  | BigEndian => le_decode (rev (take 8 b))
  end.

(** [order.PutUint64(b, v)]: the eight bytes written to [b[0..7]]. *)
Definition PutUint64 (o : ByteOrder) (v : Z) : list Byte.byte :=
  match o with
  | LittleEndian => le_encode 8 v
  | BigEndian => rev (le_encode 8 v)
  end.

End Binary.
Import Binary.

(** ** rocksdb/types.go *)

Module Rocksdb.

(** [type ValueType uint8] with its three constants. *)
Definition ValueType := Z.
Definition TypeDeletion : ValueType := 0.
Definition TypeValue : ValueType := 1.
Definition TypeMerge : ValueType := 2.

(** A well-formed [uint8]. *)
Definition is_uint8 (v : Z) : Prop := 0 <= v < 256.

Definition IsValue (vt : ValueType) : bool := vt <=? TypeMerge.

(** [type Comparator func(key1 []byte, key2 []byte) int] *)
Definition Comparator := list Byte.byte -> list Byte.byte -> Z.

Record InternalKey := mkInternalKey {
  UserKey : list Byte.byte;
  SequenceNumber : Z;          (* uint64 *)
  ValueTypeOf : ValueType
}.

Definition packSeqAndType (ikey : InternalKey) : Z :=
  Z.lor (u64 (Z.shiftl (SequenceNumber ikey) 8)) (ValueTypeOf ikey).

(** [ikey.unpackSeqAndType(pack)] assigns the two numeric fields. *)
Definition unpackSeqAndType (ikey : InternalKey) (pack : Z) : InternalKey :=
  {| UserKey := UserKey ikey;
     SequenceNumber := Z.shiftr pack 8;
     ValueTypeOf := Z.land pack 255 |}.

Section WithEndian.

(** [rocksEndian] is declared in another file of the package; the codec is
    developed for either byte order. *)
Variable rocksEndian : ByteOrder.

Definition Encode (ikey : InternalKey) : list Byte.byte :=
  UserKey ikey ++ PutUint64 rocksEndian (packSeqAndType ikey).

(** [Decode] overwrites the receiver; slicing [encoded[0:len-8]] panics
    ([None]) when fewer than eight bytes are supplied. *)
Definition Decode (ikey : InternalKey) (encoded : list Byte.byte)
  : option InternalKey :=
  if (length encoded <? 8)%nat then None
  else
    let userKeyLen := (length encoded - 8)%nat in
    let ikey1 := {| UserKey := take 0 (UserKey ikey) ++ take userKeyLen encoded;
                    SequenceNumber := SequenceNumber ikey;
                    ValueTypeOf := ValueTypeOf ikey |} in
    Some (unpackSeqAndType ikey1 (Uint64 rocksEndian (drop userKeyLen encoded))).

Definition CompareInternalKey (c : Comparator) (key1 key2 : list Byte.byte)
  : option Z :=
  if ((length key1 <? 8) || (length key2 <? 8))%nat then None
  else
    let k1 := take (length key1 - 8) key1 in
    let k2 := take (length key2 - 8) key2 in
    let cmp := c k1 k2 in
    if cmp =? 0 then
      let num1 := Uint64 rocksEndian (drop (length key1 - 8) key1) in
      let num2 := Uint64 rocksEndian (drop (length key2 - 8) key2) in
      if num1 >? num2 then Some (-1)
      else if num1 <? num2 then Some 1
      else Some cmp
    else Some cmp.

End WithEndian.

End Rocksdb.
Import Rocksdb.

(** ** Go library functions used by the snapshot manager *)

Module GoLib.

Inductive error :=
| Errorf (msg : string)                 (* errors.New / errors.Errorf *)
| ErrSyntax (num : string)              (* strconv.NumError, ErrSyntax *)
| ErrRange (num : string)               (* strconv.NumError, ErrRange *)
| ErrOS (op : string) (path : string).  (* *os.PathError and the like *)

Inductive Result (A : Type) :=
| Ok (a : A)
| Err (e : error).
Arguments Ok {A} a.
Arguments Err {A} e.

(** [strings.HasPrefix(s, prefix)] *)
Definition HasPrefix (s pre : string) : bool := String.prefix pre s.

(** [strings.HasSuffix(s, suffix)] *)
Definition HasSuffix (s suf : string) : bool :=
  (String.length suf <=? String.length s)%nat
  && String.eqb
       (String.substring (String.length s - String.length suf)
                         (String.length suf) s) suf.

(** [s[:n]] *)
Definition slice_to (s : string) (n : nat) : string := String.substring 0 n s.

(** [strings.Split(s, sep)] for a one-byte separator. *)
Fixpoint Split (s : string) (sep : ascii) : list string :=
  match s with
  | EmptyString => [EmptyString]
  | String c t =>
      if Ascii.eqb c sep then EmptyString :: Split t sep
      else match Split t sep with
           | h :: r => String c h :: r
           | [] => [String c EmptyString]
           end
  end.

(** [strconv.ParseUint(s, 10, 64)]: the digit loop with its two overflow
    guards ([n >= cutoff] and [n1 > maxVal]). *)
Definition cutoff : Z := MaxUint64 / 10 + 1.

Definition digit_of (c : ascii) : option Z :=
  let n := Z.of_nat (nat_of_ascii c) in
  if (48 <=? n) && (n <=? 57) then Some (n - 48) else None.

Fixpoint parse_digits (s0 s : string) (n : Z) : Result Z :=
  match s with
  | EmptyString => Ok n
  | String c t =>
      match digit_of c with
      | None => Err (ErrSyntax s0)
      | Some d =>
          if n >=? cutoff then Err (ErrRange s0)
          else
            let n1 := n * 10 + d in
            if n1 >? MaxUint64 then Err (ErrRange s0)
            else parse_digits s0 t n1
      end
  end.

Definition ParseUint (s : string) : Result Z :=
  match s with
  | EmptyString => Err (ErrSyntax s)
  | _ => parse_digits s s 0
  end.

(** [sort.Slice(x, less)].  The library routine is an unstable comparison
    sort; it is modelled by its insertion sort
    ([for i { for j := i; j > a && less(j, j-1); j-- { swap(j, j-1) } }]),
    the already sorted prefix being kept in reverse. *)
Fixpoint insert_back {A} (less : A -> A -> bool) (x : A) (rprefix : list A)
  : list A :=
  match rprefix with
  | [] => [x]
  | y :: t => if less x y then y :: insert_back less x t else x :: y :: t
  end.

Definition sort_Slice {A} (less : A -> A -> bool) (x : list A) : list A :=
  rev (fold_left (fun rprefix a => insert_back less a rprefix) x []).

(** [os.FileInfo], as far as the manager looks at it. *)
Record FileInfo := mkFileInfo {
  Name : string;
  IsDir : bool;
  Size : Z;          (* int64 *)
  ModTime : Z        (* time.Time, as an instant *)
}.

End GoLib.
Import GoLib.

(** ** raftstore: the snapshot manager *)

Module Raftstore.

(** [type SnapKey struct { RegionID, Term, Index uint64 }] *)
Record SnapKey := mkSnapKey { RegionID : Z; Term : Z; Index : Z }.

#[global] Instance SnapKey_eq_dec : EqDecision SnapKey.
Proof. solve_decision. Defined.

#[global] Instance SnapKey_countable : Countable SnapKey.
Proof.
  apply (inj_countable' (fun k => (RegionID k, Term k, Index k))
                        (fun t => mkSnapKey t.1.1 t.1.2 t.2)).
  intros []; reflexivity.
Defined.

(** [type SnapKeyWithSending struct { SnapKey SnapKey; IsSending bool }] *)
Record SnapKeyWithSending := mkSnapKeyWithSending {
  SnapKeyOf : SnapKey;
  IsSending : bool
}.

(** [type SnapEntry int] with its four constants. *)
Definition SnapEntry := Z.
Definition SnapEntryGenerating : SnapEntry := 1.
Definition SnapEntrySending : SnapEntry := 2.
Definition SnapEntryReceiving : SnapEntry := 3.
Definition SnapEntryApplying : SnapEntry := 4.

(** The manager.  [snapSize] is the cell behind the [*int64]; [router] is
    [None] for a nil router and otherwise counts the
    [MsgTypeStoreSnapshotStats] messages handed to it.  The rate limiter
    plays no part below and is left out. *)
Record SnapManager := mkSnapManager {
  base : string;
  snapSize : Z;
  registry : gmap SnapKey (list SnapEntry);
  router : option nat;
  MaxTotalSize : Z
}.

Definition set_registry (sm : SnapManager) (r : gmap SnapKey (list SnapEntry))
  : SnapManager :=
  {| base := base sm; snapSize := snapSize sm; registry := r;
     router := router sm; MaxTotalSize := MaxTotalSize sm |}.

Definition set_snapSize (sm : SnapManager) (n : Z) : SnapManager :=
  {| base := base sm; snapSize := n; registry := registry sm;
     router := router sm; MaxTotalSize := MaxTotalSize sm |}.

Definition notifyStats (sm : SnapManager) : SnapManager :=
  {| base := base sm; snapSize := snapSize sm; registry := registry sm;
     router := S <$> router sm; MaxTotalSize := MaxTotalSize sm |}.

Record SnapManagerBuilder := mkSnapManagerBuilder { maxTotalSize : Z }.

Definition Build (smb : SnapManagerBuilder) (path : string) (rt : option nat)
  : SnapManager :=
  {| base := path;
     snapSize := 0;
     registry := ∅;
     router := rt;
     MaxTotalSize := if maxTotalSize smb >? 0 then maxTotalSize smb
                     else MaxUint64 |}.

Definition HasRegistered (sm : SnapManager) (key : SnapKey) : bool :=
  match registry sm !! key with
  | Some _ => true
  | None => false
  end.

Definition GetTotalSnapSize (sm : SnapManager) : Z :=
  uint64_of_int64 (snapSize sm).

(** The [for _, e := range entries { if e == entry ... }] scan. *)
Definition has_entry (entry : SnapEntry) (entries : list SnapEntry) : bool :=
  existsb (fun e => e =? entry) entries.

Definition Register (key : SnapKey) (entry : SnapEntry) (sm : SnapManager)
  : SnapManager :=
  match registry sm !! key with
  | Some entries =>
      if has_entry entry entries then sm
      else notifyStats (set_registry sm (<[key := entries ++ [entry]]> (registry sm)))
  | None =>
      notifyStats (set_registry sm (<[key := [] ++ [entry]]> (registry sm)))
  end.

(** Index of the first [e == entry], the [i] at which the loop breaks. *)
Fixpoint index_of (entry : SnapEntry) (entries : list SnapEntry) : option nat :=
  match entries with
  | [] => None
  | e :: t => if e =? entry then Some O else S <$> index_of entry t
  end.

Definition Deregister (key : SnapKey) (entry : SnapEntry) (sm : SnapManager)
  : SnapManager :=
  match registry sm !! key with
  | Some entries =>
      match index_of entry entries with
      | Some i =>
          let entries' := take i entries ++ drop (S i) entries in
          if (0 <? length entries')%nat
          then notifyStats (set_registry sm (<[key := entries']> (registry sm)))
          else notifyStats (set_registry sm (delete key (registry sm)))
      | None => sm
      end
  | None => sm
  end.

(** The [Snapshot] interface and the file-system calls of the manager, over
    an abstract disk.  [Snapshot_Delete] receives the disk and the size cell
    the handle was created with, and returns both. *)
Class SnapshotIO := {
  Disk : Type;
  Snapshot : Type;
  ReadDir : Disk -> string -> Result (list FileInfo);
  NewSnapForBuilding : Disk -> string -> SnapKey -> Result Snapshot;
  NewSnapForSending : Disk -> string -> SnapKey -> Result Snapshot;
  Snapshot_Meta : Snapshot -> Disk -> Result FileInfo;
  Snapshot_Delete : Snapshot -> Disk -> Z -> Disk * Z
}.

Section Manager.

Context `{SnapshotIO}.

(** File-name constants declared in another file of the package. *)
Variables metaFileSuffix snapGenPrefix : string.

(** The state the manager's methods run in. *)
Definition World : Type := SnapManager * Disk.

(** The comparison closure passed to [sort.Slice] in [ListIdleSnap]. *)
Definition idle_less (ki kj : SnapKeyWithSending) : bool :=
  let keyI := SnapKeyOf ki in
  let keyJ := SnapKeyOf kj in
  if RegionID keyI =? RegionID keyJ then
    if Term keyI =? Term keyJ then
      if Index keyI =? Index keyJ then negb (IsSending ki)
      else Index keyI <? Index keyJ
    else Term keyI <? Term keyJ
  else RegionID keyI <? RegionID keyJ.

(** One file name of the directory: [Ok None] stands for [continue]. *)
Definition parse_idle (sm : SnapManager) (fi : FileInfo)
  : Result (option SnapKeyWithSending) :=
  if IsDir fi then Ok None
  else
    let name := Name fi in
    if negb (HasSuffix name metaFileSuffix) then Ok None
    else
      let name := slice_to name (String.length name - String.length metaFileSuffix) in
      let sending := HasPrefix name snapGenPrefix in
      let numberStrs := Split name "_"%char in
      match numberStrs with
      | [_; s1; s2; s3] =>
          match ParseUint s1 with
          | Err e => Err e
          | Ok regionID =>
              match ParseUint s2 with
              | Err e => Err e
              | Ok term =>
                  match ParseUint s3 with
                  | Err e => Err e
                  | Ok index =>
                      let key := mkSnapKey regionID term index in
                      match registry sm !! key with
                      | Some _ => Ok None
                      | None => Ok (Some (mkSnapKeyWithSending key sending))
                      end
                  end
              end
          end
      | _ => Err (Errorf ("failed to parse file " ++ name))
      end.

Fixpoint list_idle_loop (sm : SnapManager) (fis : list FileInfo)
         (results : list SnapKeyWithSending)
  : Result (list SnapKeyWithSending) :=
  match fis with
  | [] => Ok results
  | fi :: rest =>
      match parse_idle sm fi with
      | Err e => Err e
      | Ok None => list_idle_loop sm rest results
      | Ok (Some key) => list_idle_loop sm rest (results ++ [key])
      end
  end.

Definition ListIdleSnap (w : World) : Result (list SnapKeyWithSending) :=
  let '(sm, d) := w in
  match ReadDir d (base sm) with
  | Err e => Err e
  | Ok fis =>
      match list_idle_loop sm fis [] with
      | Err e => Err e
      | Ok results => Ok (sort_Slice idle_less results)
      end
  end.

Definition GetSnapshotForSending (w : World) (snapKey : SnapKey)
  : Result Snapshot :=
  let '(sm, d) := w in NewSnapForSending d (base sm) snapKey.

Definition DeleteSnapshot (key : SnapKey) (snapshot : Snapshot)
           (checkEntry : bool) (w : World) : bool * World :=
  let '(sm, d) := w in
  let refuse :=
    if checkEntry then
      match registry sm !! key with
      | Some e => (0 <? length e)%nat
      | None => false
      end
    else
      match registry sm !! key with
      | Some _ => true
      | None => false
      end in
  if refuse then (false, w)
  else
    let '(d', n') := Snapshot_Delete snapshot d (snapSize sm) in
    (true, (set_snapSize sm n', d')).

Record snapWithModTime := mkSnapWithModTime {
  swm_key : SnapKey;
  swm_snap : Snapshot;
  swm_modTime : Z
}.

(** First loop of [deleteOldIdleSnaps]: the candidates, in listing order. *)
Fixpoint collect_snaps (w : World) (idleSnaps : list SnapKeyWithSending)
         (snaps : list snapWithModTime) : Result (list snapWithModTime) :=
  match idleSnaps with
  | [] => Ok snaps
  | idleSnap :: rest =>
      if negb (IsSending idleSnap) then collect_snaps w rest snaps
      else
        match GetSnapshotForSending w (SnapKeyOf idleSnap) with
        | Err _ => collect_snaps w rest snaps
        | Ok snap =>
            match Snapshot_Meta snap (snd w) with
            | Err e => Err e
            | Ok fi =>
                collect_snaps w rest
                  (snaps ++ [mkSnapWithModTime (SnapKeyOf idleSnap) snap (ModTime fi)])
            end
        end
  end.

Definition modTime_Before (a b : snapWithModTime) : bool :=
  swm_modTime a <? swm_modTime b.

(** Second loop: [for sm.GetTotalSnapSize() > sm.MaxTotalSize { ... }]. *)
Fixpoint evict_loop (snaps : list snapWithModTime) (w : World)
  : option error * World :=
  if GetTotalSnapSize (fst w) >? MaxTotalSize (fst w) then
    match snaps with
    | [] => (Some (Errorf "too many snapshots"), w)
    | oldest :: snaps' =>
        evict_loop snaps'
          (snd (DeleteSnapshot (swm_key oldest) (swm_snap oldest) false w))
    end
  else (None, w).

Definition deleteOldIdleSnaps (w : World) : option error * World :=
  match ListIdleSnap w with
  | Err e => (Some e, w)
  | Ok idleSnaps =>
      match collect_snaps w idleSnaps [] with
      | Err e => (Some e, w)
      | Ok snaps => evict_loop (sort_Slice modTime_Before snaps) w
      end
  end.

Definition GetSnapshotForBuilding (key : SnapKey) (w : World)
  : Result Snapshot * World :=
  let build (w : World) :=
    (NewSnapForBuilding (snd w) (base (fst w)) key, w) in
  if GetTotalSnapSize (fst w) >? MaxTotalSize (fst w) then
    match deleteOldIdleSnaps w with
    | (Some err, w') => (Err err, w')
    | (None, w') => build w'
    end
  else build w.

End Manager.

End Raftstore.
Import Raftstore.

(** ** Notions used to state the properties of the manager *)

Module SnapSpec.


(** The entries a key holds; none when the key is absent. *)
Definition entries_of (sm : SnapManager) (key : SnapKey) : list SnapEntry :=
  default [] (registry sm !! key).


(** Order of [SnapKey]: by RegionID, then Term, then Index. *)
Definition key_lt (a b : SnapKey) : Prop :=
  RegionID a < RegionID b
  \/ (RegionID a = RegionID b /\ Term a < Term b)
  \/ (RegionID a = RegionID b /\ Term a = Term b /\ Index a < Index b).

(** [a] may stand before [b] in an idle listing: keys ascending, and at
    equal keys a sending entry never before a receiving one. *)
Definition idle_le (a b : SnapKeyWithSending) : Prop :=
  key_lt (SnapKeyOf a) (SnapKeyOf b)
  \/ (SnapKeyOf a = SnapKeyOf b /\ (IsSending a = true -> IsSending b = true)).

Section Eviction.

Context `{SnapshotIO}.

(** The effect of an unrefused [DeleteSnapshot] on the world. *)
Definition delete_one (w : World) (s : snapWithModTime) : World :=
  let '(d', n') := Snapshot_Delete (swm_snap s) (snd w) (snapSize (fst w)) in
  (set_snapSize (fst w) n', d').

Definition delete_all (w : World) (snaps : list snapWithModTime) : World :=
  fold_left delete_one snaps w.

Definition over_quota (w : World) : Prop :=
  GetTotalSnapSize (fst w) > MaxTotalSize (fst w).

Definition modTime_le (a b : snapWithModTime) : Prop :=
  swm_modTime a <= swm_modTime b.

(** The eviction candidate an idle entry stands for: a sending-flagged entry
    whose handle opens and whose file metadata can be read, with the
    modification time read from it. *)
Definition candidate_of (w : World) (idleSnap : SnapKeyWithSending)
  : option snapWithModTime :=
  if IsSending idleSnap then
    match GetSnapshotForSending w (SnapKeyOf idleSnap) with
    | Ok snap =>
        match Snapshot_Meta snap (snd w) with
        | Ok fi => Some (mkSnapWithModTime (SnapKeyOf idleSnap) snap (ModTime fi))
        | Err _ => None
        end
    | Err _ => None
    end
  else None.

Definition candidates_of (w : World) (idleSnaps : list SnapKeyWithSending)
  : list snapWithModTime :=
  omap (candidate_of w) idleSnaps.

End Eviction.

End SnapSpec.
Import SnapSpec.

(** ** raftstore: store bootstrap *)

Module Bootstrap.

(** The two engines, each a map from key bytes to value bytes. *)
Record Engines := mkEngines {
  kv : gmap string string;
  raft : gmap string string
}.

Record StoreIdent := mkStoreIdent { ClusterId : Z; StoreId : Z }.

Section WithKeys.

(** The store identity key and the protobuf encoding of [StoreIdent]. *)
Variable storeIdentKey : string.
Variable Marshal : StoreIdent -> string.

(** Modelled from the spec: [BootstrapStore] itself (bootstrap.go is not
    among the sources; only its test is).  "Fails with an already
    bootstrapped error if the store identity key already exists;
    otherwise writes it." *)
Definition BootstrapStore (engines : Engines) (clusterID storeID : Z)
  : option error * Engines :=
  match kv engines !! storeIdentKey with
  | Some _ => (Some (Errorf "already bootstrapped"), engines)
  | None =>
      (None,
       {| kv := <[storeIdentKey := Marshal (mkStoreIdent clusterID storeID)]>
                  (kv engines);
          raft := raft engines |})
  end.

End WithKeys.

End Bootstrap.
Import Bootstrap.

(** ** A disk in memory, for running the manager on concrete directories *)

Module MemDisk.

(** A directory entry; [mf_intact] tells whether the file's payload can be
    loaded. *)
Record MemFile := mkMemFile { mf_info : FileInfo; mf_intact : bool }.

Record handle := mkHandle { h_key : SnapKey; h_meta : string; h_data : string }.

Definition snap_name (pre : string) (k : SnapKey) : string :=
  pre ++ "_" ++ pretty (RegionID k) ++ "_" ++ pretty (Term k)
      ++ "_" ++ pretty (Index k).

Definition open (pre : string) (k : SnapKey) : handle :=
  {| h_key := k;
     h_meta := snap_name pre k ++ ".meta";
     h_data := snap_name pre k ++ "_default.sst" |}.

Fixpoint find_file (name : string) (d : list MemFile) : option MemFile :=
  match d with
  | [] => None
  | f :: t => if String.eqb (Name (mf_info f)) name then Some f
              else find_file name t
  end.

Definition remove_file (name : string) (d : list MemFile) : list MemFile :=
  filter (fun f => negb (String.eqb (Name (mf_info f)) name)) d.

Definition new_for_sending (d : list MemFile) (_ : string) (k : SnapKey)
  : Result handle :=
  let h := open "gen" k in
  match find_file (h_meta h) d with
  | Some f => if mf_intact f then Ok h else Err (ErrOS "load" (h_meta h))
  | None => Ok h
  end.

Definition stat_meta (h : handle) (d : list MemFile) : Result FileInfo :=
  match find_file (h_meta h) d with
  | Some f => Ok (mf_info f)
  | None => Err (ErrOS "stat" (h_meta h))
  end.

Definition delete (h : handle) (d : list MemFile) (sizeTrack : Z)
  : list MemFile * Z :=
  let n := match find_file (h_data h) d with
           | Some f => sizeTrack - Size (mf_info f)
           | None => sizeTrack
           end in
  (remove_file (h_meta h) (remove_file (h_data h) d), n).

(** Modelled from the spec: the role-bound [Snapshot] handles (snap.go is not
    among the sources).  A handle names the artifact of one key, exposes its
    metadata, and its deletion "deletes the underlying files and decrements
    the counter". *)
#[global] Instance mem_io : SnapshotIO := {|
  Disk := list MemFile;
  Snapshot := handle;
  ReadDir := fun d _ => Ok (map mf_info d);
  NewSnapForBuilding := fun _ _ k => Ok (open "gen" k);
  NewSnapForSending := new_for_sending;
  Snapshot_Meta := stat_meta;
  Snapshot_Delete := delete
|}.

Definition file (name : string) (size mtime : Z) : MemFile :=
  mkMemFile (mkFileInfo name false size mtime) true.

Definition damaged (name : string) (size mtime : Z) : MemFile :=
  mkMemFile (mkFileInfo name false size mtime) false.

End MemDisk.

(** ** Concrete directories and managers *)

Module Scenario.
Import MemDisk.

Local Open Scope string_scope.

Definition key1 : SnapKey := mkSnapKey 1 1 1.
Definition key2 : SnapKey := mkSnapKey 2 1 1.
Definition key3 : SnapKey := mkSnapKey 3 1 1.
Definition key7 : SnapKey := mkSnapKey 7 1 1.

Definition fresh : SnapManager := Build (mkSnapManagerBuilder 0) "snap" None.

(** Three unregistered 100-byte sending snapshots under a quota of 250; the
    one of region 2 is the oldest. *)
Definition quota250 : World :=
  (set_snapSize (Build (mkSnapManagerBuilder 250) "snap" None) 300,
   [ file "gen_1_1_1.meta" 16 30; file "gen_1_1_1_default.sst" 100 30;
     file "gen_2_1_1.meta" 16 10; file "gen_2_1_1_default.sst" 100 10;
     file "gen_3_1_1.meta" 16 20; file "gen_3_1_1_default.sst" 100 20 ]).

Definition quota250_after : World :=
  (set_snapSize (Build (mkSnapManagerBuilder 250) "snap" None) 200,
   [ file "gen_1_1_1.meta" 16 30; file "gen_1_1_1_default.sst" 100 30;
     file "gen_3_1_1.meta" 16 20; file "gen_3_1_1_default.sst" 100 20 ]).

(** Two sending snapshots over a quota of 150; the meta file of the older
    one cannot be loaded. *)
Definition unloadable : World :=
  (set_snapSize (Build (mkSnapManagerBuilder 150) "snap" None) 200,
   [ damaged "gen_1_1_1.meta" 16 10; file "gen_1_1_1_default.sst" 100 10;
     file "gen_2_1_1.meta" 16 20; file "gen_2_1_1_default.sst" 100 20 ]).

Definition unloadable_after : World :=
  (set_snapSize (Build (mkSnapManagerBuilder 150) "snap" None) 100,
   [ damaged "gen_1_1_1.meta" 16 10; file "gen_1_1_1_default.sst" 100 10 ]).

(** The older snapshot's meta file carries a zero-padded region id: the
    handle of key (1,1,1) opens, but its meta file cannot be found. *)
Definition unstatable : World :=
  (set_snapSize (Build (mkSnapManagerBuilder 150) "snap" None) 200,
   [ file "gen_01_1_1.meta" 16 10; file "gen_1_1_1_default.sst" 100 10;
     file "gen_2_1_1.meta" 16 20; file "gen_2_1_1_default.sst" 100 20 ]).

(** A directory with sending and receiving files, a registered key, a
    subdirectory and an unrelated file. *)
Definition mixed : World :=
  (Register key7 SnapEntrySending fresh,
   [ file "gen_5_2_3.meta" 16 10; file "rev_5_2_3.meta" 16 10;
     file "gen_5_2_1.meta" 16 11; file "gen_4_9_9.meta" 16 12;
     file "gen_7_1_1.meta" 16 13; file "notes.txt" 3 14;
     mkMemFile (mkFileInfo "sub.meta" true 0 15) true ]).

Definition mixed_idle : list SnapKeyWithSending :=
  [ mkSnapKeyWithSending (mkSnapKey 4 9 9) true;
    mkSnapKeyWithSending (mkSnapKey 5 2 1) true;
    mkSnapKeyWithSending (mkSnapKey 5 2 3) false;
    mkSnapKeyWithSending (mkSnapKey 5 2 3) true ].

(** An eviction candidate of the in-memory disk. *)
Definition candidate (k : SnapKey) (mtime : Z) : @snapWithModTime mem_io :=
  @mkSnapWithModTime mem_io k (open "gen" k) mtime.

Definition engines0 : Engines := mkEngines ∅ ∅.

Definition ident_key : string := "store_ident".

Definition marshal_ident (ident : StoreIdent) : string :=
  pretty (ClusterId ident) ++ ":" ++ pretty (StoreId ident).

(** [bytes.Compare], a comparator to run [CompareInternalKey] with. *)
Fixpoint bytes_Compare (a b : list Byte.byte) : Z :=
  match a, b with
  | [], [] => 0
  | [], _ :: _ => -1
  | _ :: _, [] => 1
  | x :: a', y :: b' =>
      if (byte_to_Z x <? byte_to_Z y)%Z then -1
      else if (byte_to_Z y <? byte_to_Z x)%Z then 1
      else bytes_Compare a' b'
  end.

Definition user_a : list Byte.byte := [Byte.x61].

End Scenario.

(** ** rocksdb/types.go: block handles *)

Module BlockHandle.

Definition MaxVarintLen64 : nat := 10.

Record blockHandle := mkBlockHandle { Offset : Z; Size : Z }.   (* uint64 *)

(** [copy(dst, src)]: the contents of [dst] afterwards. *)
Definition copy (dst src : list Byte.byte) : list Byte.byte :=
  take (length dst) src ++ drop (length src) dst.

Section WithVarint.

(** The varint codec is declared in another file of the package.
    [encodeVarint64 buf v] gives the slice it returns and the contents of
    [buf] after the call; [decodeVarint64 buf] gives the value and the number
    of bytes read. *)
Variable encodeVarint64 : list Byte.byte -> Z -> list Byte.byte * list Byte.byte.
Variable decodeVarint64 : list Byte.byte -> Z * Z.

(** [h.EncodeTo(buf)]: the returned count and the contents of [buf]
    afterwards; slicing [buf[cursor:]] panics ([None]) past the end. *)
Definition EncodeTo (h : blockHandle) (buf : list Byte.byte)
  : option (Z * list Byte.byte) :=
  let b := replicate MaxVarintLen64 Byte.x00 in
  let cursor := O in
  let '(off, buf) := encodeVarint64 buf (Offset h) in
  let buf := take cursor buf ++ copy (drop cursor buf) off in
  let cursor := (cursor + length off)%nat in
  let '(sz, _) := encodeVarint64 b (Size h) in
  if (length buf <? cursor)%nat then None
  else
    let buf := take cursor buf ++ copy (drop cursor buf) sz in
    Some (Z.of_nat cursor + Z.of_nat (length sz), buf).

(** [h.Encode()]: [result[:n]] panics when [n] exceeds the twenty bytes. *)
Definition Encode (h : blockHandle) : option (list Byte.byte) :=
  let result := replicate (2 * MaxVarintLen64) Byte.x00 in
  match EncodeTo h result with
  | None => None
  | Some (n, result) =>
      if (n <? 0) || (Z.of_nat (length result) <? n) then None
      else Some (take (Z.to_nat n) result)
  end.

(** [h.Decode(buf)]: the handle afterwards and the returned count;
    [buf[n1:]] panics for [n1] outside the slice. *)
Definition Decode (h : blockHandle) (buf : list Byte.byte)
  : option (blockHandle * Z) :=
  let '(off, n1) := decodeVarint64 buf in
  if (n1 <? 0) || (Z.of_nat (length buf) <? n1) then None
  else
    let '(sz, n2) := decodeVarint64 (drop (Z.to_nat n1) buf) in
    Some ({| Offset := off; Size := sz |}, n1 + n2).

End WithVarint.

End BlockHandle.

(** ** raftstore: the rest of the snapshot manager *)

Module Manager.

(** [func (e SnapEntry) String() string] *)
Definition SnapEntry_String (e : SnapEntry) : string :=
  if e =? SnapEntryGenerating then "generating"
  else if e =? SnapEntrySending then "sending"
  else if e =? SnapEntryReceiving then "receiving"
  else if e =? SnapEntryApplying then "applying"
  else "unknown".

Record SnapStats := mkSnapStats { ReceivingCount : Z; SendingCount : Z }.

(** The inner loop of [Stats]: the two flags of one entry list. *)
Definition entry_flags (entries : list SnapEntry) : bool * bool :=
  fold_left
    (fun (flags : bool * bool) entry =>
       let '(isSending, isReceiving) := flags in
       if (entry =? SnapEntryGenerating) || (entry =? SnapEntrySending)
       then (true, isReceiving)
       else if (entry =? SnapEntryReceiving) || (entry =? SnapEntryApplying)
            then (isSending, true)
            else (isSending, isReceiving))
    entries (false, false).

(** [Stats]: the range over the map, with the counters as the accumulator
    (the counters stay far below the width of [int]). *)
Definition Stats (sm : SnapManager) : SnapStats :=
  let '(sendingCount, receivingCount) :=
    map_fold
      (fun (_ : SnapKey) (entries : list SnapEntry) (acc : Z * Z) =>
         let '(isSending, isReceiving) := entry_flags entries in
         let sendingCount := if isSending then fst acc + 1 else fst acc in
         let receivingCount := if isReceiving then snd acc + 1 else snd acc in
         (sendingCount, receivingCount))
      (0, 0) (registry sm) in
  {| SendingCount := sendingCount; ReceivingCount := receivingCount |}.

(** [smb.MaxTotalSize(v)] *)
Definition SnapManagerBuilder_MaxTotalSize (smb : SnapManagerBuilder) (v : Z)
  : SnapManagerBuilder :=
  {| maxTotalSize := v |}.

(** [NewSnapManager(path, router)]: [new(SnapManagerBuilder).Build(...)]. *)
Definition NewSnapManager (path : string) (rt : option nat) : SnapManager :=
  Build {| maxTotalSize := 0 |} path rt.

(** [atomic.AddInt64(addr, delta)]: the new contents, wrapped to 64 bits. *)
Definition wrap_int64 (z : Z) : Z := (z + 2 ^ 63) mod two64 - 2 ^ 63.

Definition AddInt64 (cell delta : Z) : Z := wrap_int64 (cell + delta).

(** The result of [os.Stat], by the way [init] looks at it. *)
Inductive StatResult :=
| StatOk (fi : FileInfo)
| StatNotExist (e : error)      (* [os.IsNotExist(err)] *)
| StatErr (e : error).

(** The further file-system calls of [init]. *)
Class DirIO `{SnapshotIO} := {
  Stat : Disk -> string -> StatResult;
  MkdirAll : Disk -> string -> Result Disk;
  Remove : Disk -> string -> Result Disk;
  filepath_Join : string -> string -> string
}.

Section Init.

Context `{DirIO}.

(** File-name constants declared in another file of the package. *)
Variables tmpFileSuffix sstFileSuffix : string.

(** The [for _, fi := range fis] loop of [init]. *)
Fixpoint init_loop (fis : list FileInfo) (w : World) : option error * World :=
  match fis with
  | [] => (None, w)
  | fi :: rest =>
      if negb (IsDir fi) then
        let name := Name fi in
        if HasSuffix name tmpFileSuffix then
          match Remove (snd w) (filepath_Join (base (fst w)) name) with
          | Err e => (Some e, w)
          | Ok d' => init_loop rest (fst w, d')
          end
        else if HasSuffix name sstFileSuffix then
          init_loop rest
            (set_snapSize (fst w) (AddInt64 (snapSize (fst w)) (Size fi)), snd w)
        else init_loop rest w
      else init_loop rest w
  end.

Definition init (w : World) : option error * World :=
  match Stat (snd w) (base (fst w)) with
  | StatNotExist _ =>
      match MkdirAll (snd w) (base (fst w)) with
      | Err e => (Some e, w)
      | Ok d' => (None, (fst w, d'))
      end
  | StatErr e => (Some e, w)
  | StatOk fi =>
      if negb (IsDir fi)
      then (Some (Errorf (base (fst w) ++ " should be a directory")), w)
      else
        match ReadDir (snd w) (base (fst w)) with
        | Err e => (Some e, w)
        | Ok fis => init_loop fis w
        end
  end.

End Init.

End Manager.

(** ** Notions used to state further properties *)

Module MoreSpec.
Import Manager.

(** The two cases of the [switch] in [Stats]. *)
Definition sending_entry (entry : SnapEntry) : bool :=
  (entry =? SnapEntryGenerating) || (entry =? SnapEntrySending).

Definition receiving_entry (entry : SnapEntry) : bool :=
  (entry =? SnapEntryReceiving) || (entry =? SnapEntryApplying).

(** The body of the range loop of [Stats] on one key. *)
Definition stats_step (_ : SnapKey) (entries : list SnapEntry) (acc : Z * Z) : Z * Z :=
  let '(isSending, isReceiving) := entry_flags entries in
  let sendingCount := if isSending then fst acc + 1 else fst acc in
  let receivingCount := if isReceiving then snd acc + 1 else snd acc in
  (sendingCount, receivingCount).

(** The keys of the files a parser accepts, in directory order. *)
Definition parsed_keys (parse : FileInfo -> Result (option SnapKeyWithSending))
           (fis : list FileInfo) : list SnapKeyWithSending :=
  omap (fun fi => match parse fi with
                  | Ok (Some k) => Some k
                  | _ => None
                  end) fis.

(** A file [init] removes, a file [init] counts. *)
Definition is_tmp_file (tmpFileSuffix : string) (fi : FileInfo) : bool :=
  negb (IsDir fi) && HasSuffix (Name fi) tmpFileSuffix.

Definition is_counted_file (tmpFileSuffix sstFileSuffix : string) (fi : FileInfo)
  : bool :=
  negb (IsDir fi) && negb (HasSuffix (Name fi) tmpFileSuffix)
  && HasSuffix (Name fi) sstFileSuffix.

Definition total_size (fis : list FileInfo) : Z :=
  fold_right (fun fi acc => Size fi + acc) 0 fis.

Section Removal.

Context `{DirIO}.

(** Removing the given files of directory [dir], one after the other. *)
Fixpoint remove_all (dir : string) (fis : list FileInfo) (d : Disk) : Result Disk :=
  match fis with
  | [] => Ok d
  | fi :: rest =>
      match Remove d (filepath_Join dir (Name fi)) with
      | Err e => Err e
      | Ok d' => remove_all dir rest d'
      end
  end.

End Removal.

End MoreSpec.

(** ** Further concrete inputs *)

Module Scenario2.
Import MemDisk Scenario Manager.

Local Open Scope string_scope.

(** [binary.PutUvarint] and [binary.Uvarint], a varint codec to run the block
    handles with. *)
Fixpoint put_uvarint (fuel : nat) (v : Z) : list Byte.byte :=
  match fuel with
  | O => []
  | S fuel' =>
      if (v <? 128)%Z then [Z_to_byte v]
      else Z_to_byte (Z.lor (Z.land v 127) 128) :: put_uvarint fuel' (Z.shiftr v 7)
  end.

Fixpoint uvarint (buf : list Byte.byte) (x : Z) (s : Z) (i : Z) : Z * Z :=
  match buf with
  | [] => (0, 0)%Z
  | b :: rest =>
      if (byte_to_Z b <? 128)%Z
      then (Z.lor x (Z.shiftl (byte_to_Z b) s), i + 1)%Z
      else uvarint rest (Z.lor x (Z.shiftl (Z.land (byte_to_Z b) 127) s))
                   (s + 7)%Z (i + 1)%Z
  end.

Definition encode_varint (buf : list Byte.byte) (v : Z)
  : list Byte.byte * list Byte.byte :=
  let enc := put_uvarint 10 v in
  (enc, BlockHandle.copy buf enc).

Definition decode_varint (buf : list Byte.byte) : Z * Z := uvarint buf 0 0 0.

Definition mem_stat (d : list MemFile) (path : string) : StatResult :=
  StatOk (mkFileInfo path true 0 0).

Definition mem_mkdir (d : list MemFile) (path : string) : Result (list MemFile) :=
  Ok d.

Definition mem_remove (d : list MemFile) (path : string) : Result (list MemFile) :=
  if existsb (fun f => String.eqb ("snap/" ++ Name (mf_info f)) path) d
  then Ok (filter (fun f => negb (String.eqb ("snap/" ++ Name (mf_info f)) path)) d)
  else Err (ErrOS "remove" path).

(** The in-memory disk as a directory ["snap"] that exists. *)
#[global] Instance mem_dir : @DirIO mem_io := {|
  Stat := mem_stat;
  MkdirAll := mem_mkdir;
  Remove := mem_remove;
  filepath_Join := fun dir name => dir ++ "/" ++ name
|}.

Definition mem_remove_denied (d : list MemFile) (path : string)
  : Result (list MemFile) :=
  Err (ErrOS "remove" path).

(** The same directory, mounted read-only. *)
Definition read_only_dir : @DirIO mem_io := {|
  Stat := mem_stat;
  MkdirAll := mem_mkdir;
  Remove := mem_remove_denied;
  filepath_Join := fun dir name => dir ++ "/" ++ name
|}.

(** A directory as a restart finds it: two finished snapshots, a temporary
    file left behind, and a file of no concern. *)
Definition restart : World :=
  (NewSnapManager "snap" None,
   [ file "gen_1_1_1.meta" 16 10; file "gen_1_1_1_default.sst" 100 10;
     file "gen_2_1_1_default.sst.tmp" 70 20;
     file "rev_3_1_1_default.sst" 50 30; file "LOCK" 0 5 ]).

Definition restart_after : World :=
  (set_snapSize (NewSnapManager "snap" None) 150,
   [ file "gen_1_1_1.meta" 16 10; file "gen_1_1_1_default.sst" 100 10;
     file "rev_3_1_1_default.sst" 50 30; file "LOCK" 0 5 ]).

(** Only a receiving-side snapshot is idle, and the quota is exceeded. *)
Definition receiving_only : World :=
  (set_snapSize (Build (mkSnapManagerBuilder 50) "snap" None) 100,
   [ file "rev_1_1_1.meta" 16 10; file "rev_1_1_1_default.sst" 100 10 ]).

(** A meta file with too few segments lies beside a good snapshot. *)
Definition malformed : World :=
  (set_snapSize (Build (mkSnapManagerBuilder 50) "snap" None) 100,
   [ file "gen_1_1_1.meta" 16 10; file "gen_1_1_1_default.sst" 100 10;
     file "gen_2_1.meta" 16 20 ]).

End Scenario2.

(** ** Facts about the byte codecs *)

Lemma byte_to_Z_range b : 0 <= byte_to_Z b < 256.
Proof.
  unfold byte_to_Z. pose proof (Byte.to_N_bounded b). lia.
Qed.

Lemma byte_to_Z_to_byte v : byte_to_Z (Z_to_byte v) = v mod 256.
Proof.
  unfold byte_to_Z, Z_to_byte.
  assert (Hr : 0 <= v mod 256 < 256) by (apply Z.mod_pos_bound; lia).
  destruct (Byte.of_N (Z.to_N (v mod 256))) as [b|] eqn:E.
  - apply Byte.to_of_N in E. rewrite E. lia.
  - apply Byte.of_N_None_iff in E. lia.
Qed.

Lemma lor_byte_shift b z :
  0 <= b < 256 -> Z.lor b (Z.shiftl z 8) = b + 256 * z.
Proof.
  intros Hb.
  assert (Hland : Z.land b (Z.shiftl z 8) = 0).
  { apply Z.bits_inj'. intros n Hn. rewrite Z.land_spec, Z.bits_0.
    destruct (Z.lt_ge_cases n 8) as [Hlt|Hge].
    - rewrite (Z.shiftl_spec_low z 8 n Hlt). apply andb_false_r.
    - replace b with (b mod 2 ^ 8) by (apply Z.mod_small; lia).
      rewrite Z.mod_pow2_bits_high by lia. reflexivity. }
  rewrite <- Z.lxor_lor by exact Hland.
  rewrite <- Z.add_nocarry_lxor by exact Hland.
  rewrite Z.shiftl_mul_pow2 by lia. lia.
Qed.

Lemma le_decode_arith b t :
  le_decode (b :: t) = byte_to_Z b + 256 * le_decode t.
Proof. simpl. apply lor_byte_shift, byte_to_Z_range. Qed.

Lemma le_decode_range l : 0 <= le_decode l < 256 ^ Z.of_nat (length l).
Proof.
  induction l as [|b t IH].
  - simpl. lia.
  - rewrite le_decode_arith. pose proof (byte_to_Z_range b).
    simpl length. rewrite Nat2Z.inj_succ, Z.pow_succ_r by lia. lia.
Qed.

Lemma le_encode_length n v : length (le_encode n v) = n.
Proof. revert v. induction n; intros v; simpl; [reflexivity | now rewrite IHn]. Qed.

Lemma le_decode_encode n v :
  le_decode (le_encode n v) = v mod 256 ^ Z.of_nat n.
Proof.
  revert v. induction n as [|n IH]; intros v.
  - simpl. now rewrite Z.mod_1_r.
  - cbn [le_encode]. rewrite le_decode_arith, byte_to_Z_to_byte, IH.
    rewrite Z.shiftr_div_pow2 by lia. change (2 ^ 8) with 256.
    rewrite Nat2Z.inj_succ, Z.pow_succ_r by lia.
    rewrite (Z.rem_mul_r v 256 (256 ^ Z.of_nat n)) by lia. reflexivity.
Qed.

Lemma PutUint64_length o v : length (PutUint64 o v) = 8%nat.
Proof.
  destruct o; unfold PutUint64; rewrite ?length_rev; apply le_encode_length.
Qed.

Lemma Uint64_PutUint64 o v : Uint64 o (PutUint64 o v) = u64 v.
Proof.
  assert (Ht : forall l : list Byte.byte, length l = 8%nat -> take 8 l = l).
  { intros l Hl. apply take_ge. lia. }
  destruct o; unfold Uint64, PutUint64.
  - rewrite Ht by apply le_encode_length. apply (le_decode_encode 8).
  - rewrite Ht by (rewrite length_rev; apply le_encode_length).
    rewrite rev_involutive. apply (le_decode_encode 8).
Qed.

Lemma Uint64_range o b : 0 <= Uint64 o b < two64.
Proof.
  assert (Hlen : (length (take 8 b) <= 8)%nat) by (rewrite length_take; lia).
  assert (Hpow : forall n : nat, (n <= 8)%nat -> 256 ^ Z.of_nat n <= two64).
  { intros n Hn. unfold two64. change (2 ^ 64) with (256 ^ 8).
    apply Z.pow_le_mono_r; lia. }
  destruct o; unfold Uint64.
  - pose proof (le_decode_range (take 8 b)). specialize (Hpow _ Hlen). lia.
  - pose proof (le_decode_range (rev (take 8 b))) as H.
    rewrite length_rev in H. specialize (Hpow _ Hlen). lia.
Qed.

(** ** The internal-key codec *)

Section Codec.

Variable rocksEndian : ByteOrder.

Lemma pack_value (ik : InternalKey) :
  0 <= SequenceNumber ik < 2 ^ 56 -> is_uint8 (ValueTypeOf ik) ->
  packSeqAndType ik = ValueTypeOf ik + 256 * SequenceNumber ik.
Proof.
  intros Hs Hv. unfold packSeqAndType, u64, two64.
  rewrite Z.shiftl_mul_pow2 by lia. change (2 ^ 8) with 256.
  rewrite Z.mod_small by lia.
  rewrite Z.lor_comm.
  replace (SequenceNumber ik * 256) with (Z.shiftl (SequenceNumber ik) 8)
    by (rewrite Z.shiftl_mul_pow2 by lia; reflexivity).
  apply lor_byte_shift. exact Hv.
Qed.

Lemma Encode_length ik : length (Encode rocksEndian ik) = (length (UserKey ik) + 8)%nat.
Proof. unfold Encode. rewrite length_app, PutUint64_length. reflexivity. Qed.

Lemma Encode_user_part ik :
  take (length (Encode rocksEndian ik) - 8) (Encode rocksEndian ik) = UserKey ik.
Proof.
  rewrite Encode_length. unfold Encode.
  replace (length (UserKey ik) + 8 - 8)%nat with (length (UserKey ik)) by lia.
  rewrite take_app_length. reflexivity.
Qed.

Lemma Encode_packed_part ik :
  Uint64 rocksEndian (drop (length (Encode rocksEndian ik) - 8) (Encode rocksEndian ik))
  = u64 (packSeqAndType ik).
Proof.
  rewrite Encode_length. unfold Encode.
  replace (length (UserKey ik) + 8 - 8)%nat with (length (UserKey ik)) by lia.
  rewrite drop_app_length. apply Uint64_PutUint64.
Qed.

Lemma shiftr8_lt a b : Z.shiftr a 8 > Z.shiftr b 8 -> a > b.
Proof.
  rewrite !Z.shiftr_div_pow2 by lia. change (2 ^ 8) with 256. intros Hgt.
  destruct (Z_le_gt_dec a b) as [Hle|Hg]; [|exact Hg].
  pose proof (Z.div_le_mono a b 256 ltac:(lia) Hle). lia.
Qed.

(** C9. [IsValue] answers true on each of the three defined value types,
    [TypeDeletion] (0), [TypeValue] (1) and [TypeMerge] (2) -- the deletion
    marker included. *)
Theorem IsValue_every_defined_type :
  TypeDeletion = 0 /\ TypeValue = 1 /\ TypeMerge = 2
  /\ IsValue TypeDeletion = true
  /\ IsValue TypeValue = true
  /\ IsValue TypeMerge = true.
Proof. repeat split; reflexivity. Qed.

(** C2. Round trip: for every user key, every sequence number below 2^56 and
    every value type among Deletion, Value and Merge, decoding the encoding of
    the internal key gives back exactly the same triple (whatever the receiver
    of [Decode] held before). *)
Theorem Decode_Encode_roundtrip (old ik : InternalKey) :
  0 <= SequenceNumber ik < 2 ^ 56 ->
  In (ValueTypeOf ik) [TypeDeletion; TypeValue; TypeMerge] ->
  Decode rocksEndian old (Encode rocksEndian ik) = Some ik.
Proof.
  intros Hs Hv.
  assert (Hu : is_uint8 (ValueTypeOf ik)).
  { unfold is_uint8, TypeDeletion, TypeValue, TypeMerge in *.
    simpl in Hv. lia. }
  unfold Decode.
  assert (Hlen : (length (Encode rocksEndian ik) <? 8)%nat = false).
  { apply Nat.ltb_ge. rewrite Encode_length. lia. }
  rewrite Hlen, Encode_packed_part, Encode_user_part.
  rewrite pack_value by assumption.
  unfold unpackSeqAndType, u64, two64. cbn [UserKey SequenceNumber ValueTypeOf].
  unfold is_uint8 in Hu.
  rewrite Z.mod_small by lia.
  rewrite Z.shiftr_div_pow2 by lia. change (2 ^ 8) with 256.
  change 255 with (Z.ones 8). rewrite Z.land_ones by lia. change (2 ^ 8) with 256.
  destruct ik as [uk sq vt]; cbn [UserKey SequenceNumber ValueTypeOf] in *.
  f_equal. f_equal.
  - rewrite Z.mul_comm, Z.div_add by lia. rewrite Z.div_small by lia. lia.
  - rewrite Z.mul_comm, Z.mod_add by lia. apply Z.mod_small. lia.
Qed.

(** C1. When the user-key parts of two encoded internal keys compare equal
    under the supplied comparator, [CompareInternalKey] puts the key with the
    larger sequence number first: it returns -1 when the first key carries
    the larger sequence number and +1 when it carries the smaller one.  In
    particular, for one user key encoded with sequence numbers 7 and 5, the
    sequence-7 key sorts before the sequence-5 key, in whichever order the two
    are passed. *)
Theorem CompareInternalKey_larger_seq_first (c : Comparator) :
  (forall old1 old2 key1 key2 ik1 ik2,
      Decode rocksEndian old1 key1 = Some ik1 ->
      Decode rocksEndian old2 key2 = Some ik2 ->
      c (UserKey ik1) (UserKey ik2) = 0 ->
      (SequenceNumber ik1 > SequenceNumber ik2 ->
       CompareInternalKey rocksEndian c key1 key2 = Some (-1))
      /\ (SequenceNumber ik1 < SequenceNumber ik2 ->
          CompareInternalKey rocksEndian c key1 key2 = Some 1))
  /\ (forall ik1 ik2,
      0 <= SequenceNumber ik1 < 2 ^ 56 ->
      0 <= SequenceNumber ik2 < 2 ^ 56 ->
      is_uint8 (ValueTypeOf ik1) -> is_uint8 (ValueTypeOf ik2) ->
      c (UserKey ik1) (UserKey ik2) = 0 ->
      (SequenceNumber ik1 > SequenceNumber ik2 ->
       CompareInternalKey rocksEndian c
         (Encode rocksEndian ik1) (Encode rocksEndian ik2) = Some (-1))
      /\ (SequenceNumber ik1 < SequenceNumber ik2 ->
          CompareInternalKey rocksEndian c
            (Encode rocksEndian ik1) (Encode rocksEndian ik2) = Some 1))
  /\ (forall uk vt1 vt2,
      is_uint8 vt1 -> is_uint8 vt2 -> c uk uk = 0 ->
      CompareInternalKey rocksEndian c
        (Encode rocksEndian (mkInternalKey uk 7 vt1))
        (Encode rocksEndian (mkInternalKey uk 5 vt2)) = Some (-1)
      /\ CompareInternalKey rocksEndian c
           (Encode rocksEndian (mkInternalKey uk 5 vt2))
           (Encode rocksEndian (mkInternalKey uk 7 vt1)) = Some 1).
Proof.
  assert (General : forall old1 old2 key1 key2 ik1 ik2,
      Decode rocksEndian old1 key1 = Some ik1 ->
      Decode rocksEndian old2 key2 = Some ik2 ->
      c (UserKey ik1) (UserKey ik2) = 0 ->
      (SequenceNumber ik1 > SequenceNumber ik2 ->
       CompareInternalKey rocksEndian c key1 key2 = Some (-1))
      /\ (SequenceNumber ik1 < SequenceNumber ik2 ->
          CompareInternalKey rocksEndian c key1 key2 = Some 1)).
  { intros old1 old2 key1 key2 ik1 ik2 D1 D2 Hc.
    unfold Decode in D1, D2. unfold CompareInternalKey.
    destruct (length key1 <? 8)%nat eqn:L1; [discriminate|].
    destruct (length key2 <? 8)%nat eqn:L2; [discriminate|].
    cbn [orb].
    injection D1 as <-. injection D2 as <-.
    cbn [unpackSeqAndType UserKey SequenceNumber] in Hc |- *.
    change (c (take (length key1 - 8) key1) (take (length key2 - 8) key2) = 0) in Hc.
    rewrite Hc. cbn [Z.eqb].
    set (num1 := Uint64 rocksEndian (drop (length key1 - 8) key1)).
    set (num2 := Uint64 rocksEndian (drop (length key2 - 8) key2)).
    split; intros Hseq.
    - apply shiftr8_lt in Hseq.
      destruct (Z.gtb_spec num1 num2); [reflexivity|lia].
    - assert (Hlt : num2 > num1) by (apply shiftr8_lt; lia).
      destruct (Z.gtb_spec num1 num2); [lia|].
      destruct (Z.ltb_spec num1 num2); [reflexivity|lia]. }
  assert (Encoded : forall ik1 ik2,
      0 <= SequenceNumber ik1 < 2 ^ 56 ->
      0 <= SequenceNumber ik2 < 2 ^ 56 ->
      is_uint8 (ValueTypeOf ik1) -> is_uint8 (ValueTypeOf ik2) ->
      c (UserKey ik1) (UserKey ik2) = 0 ->
      (SequenceNumber ik1 > SequenceNumber ik2 ->
       CompareInternalKey rocksEndian c
         (Encode rocksEndian ik1) (Encode rocksEndian ik2) = Some (-1))
      /\ (SequenceNumber ik1 < SequenceNumber ik2 ->
          CompareInternalKey rocksEndian c
            (Encode rocksEndian ik1) (Encode rocksEndian ik2) = Some 1)).
  { intros ik1 ik2 Hs1 Hs2 Hv1 Hv2 Hc. unfold CompareInternalKey.
    assert (L1 : (length (Encode rocksEndian ik1) <? 8)%nat = false)
      by (apply Nat.ltb_ge; rewrite Encode_length; lia).
    assert (L2 : (length (Encode rocksEndian ik2) <? 8)%nat = false)
      by (apply Nat.ltb_ge; rewrite Encode_length; lia).
    rewrite L1, L2. cbn [orb].
    rewrite !Encode_user_part, Hc, !Encode_packed_part. cbn [Z.eqb].
    rewrite !pack_value by assumption.
    unfold is_uint8 in *. unfold u64, two64. rewrite !Z.mod_small by lia.
    split; intros Hseq.
    - destruct (Z.gtb_spec (ValueTypeOf ik1 + 256 * SequenceNumber ik1)
                           (ValueTypeOf ik2 + 256 * SequenceNumber ik2));
        [reflexivity|lia].
    - destruct (Z.gtb_spec (ValueTypeOf ik1 + 256 * SequenceNumber ik1)
                           (ValueTypeOf ik2 + 256 * SequenceNumber ik2)); [lia|].
      destruct (Z.ltb_spec (ValueTypeOf ik1 + 256 * SequenceNumber ik1)
                           (ValueTypeOf ik2 + 256 * SequenceNumber ik2));
        [reflexivity|lia]. }
  split; [exact General|]. split; [exact Encoded|].
  intros uk vt1 vt2 Hv1 Hv2 Hc. split.
  - apply (Encoded (mkInternalKey uk 7 vt1) (mkInternalKey uk 5 vt2));
      cbn [UserKey SequenceNumber ValueTypeOf]; try assumption; lia.
  - apply (Encoded (mkInternalKey uk 5 vt2) (mkInternalKey uk 7 vt1));
      cbn [UserKey SequenceNumber ValueTypeOf]; try assumption; lia.
Qed.

End Codec.

(** ** The snapshot registry *)

Section Registry.

Implicit Types (sm : SnapManager) (key : SnapKey) (entry : SnapEntry).
Implicit Types (entries : list SnapEntry).

Lemma has_entry_true entry entries :
  has_entry entry entries = true <-> entry ∈ entries.
Proof.
  unfold has_entry. rewrite existsb_exists, list_elem_of_In. split.
  - intros (x & Hx & Heq). apply Z.eqb_eq in Heq. now subst.
  - intros Hin. exists entry. split; [exact Hin | apply Z.eqb_refl].
Qed.

Lemma has_entry_false entry entries :
  has_entry entry entries = false <-> entry ∉ entries.
Proof.
  rewrite <- has_entry_true. destruct (has_entry entry entries); split; congruence.
Qed.

Lemma index_of_Some entry entries i :
  index_of entry entries = Some i -> entries !! i = Some entry.
Proof.
  revert i. induction entries as [|e t IH]; intros i; cbn [index_of].
  - discriminate.
  - destruct (Z.eqb_spec e entry) as [->|Hne].
    + intros [= <-]. reflexivity.
    + destruct (index_of entry t) as [j|]; cbn; [|discriminate].
      intros [= <-]. cbn. now apply IH.
Qed.

Lemma index_of_None entry entries :
  index_of entry entries = None <-> entry ∉ entries.
Proof.
  induction entries as [|e t IH]; cbn [index_of].
  - split; [intros _; apply not_elem_of_nil | reflexivity].
  - rewrite not_elem_of_cons. destruct (Z.eqb_spec e entry) as [->|Hne].
    + split; [discriminate | intros [Hc _]; congruence].
    + destruct (index_of entry t) as [j|]; cbn.
      * split; [discriminate | intros [_ Hn]; apply IH in Hn; discriminate].
      * split; [intros _; split; [congruence | now apply IH] | reflexivity].
Qed.

Lemma index_of_is_Some entry entries :
  entry ∈ entries -> exists i, index_of entry entries = Some i.
Proof.
  intros Hin. destruct (index_of entry entries) as [i|] eqn:E; [eauto|].
  apply index_of_None in E. contradiction.
Qed.



Lemma registry_Register_absent sm key entry :
  registry sm !! key = None ->
  registry (Register key entry sm) = <[key := [entry]]> (registry sm).
Proof. intros E. unfold Register. rewrite E. reflexivity. Qed.

Lemma registry_Register_new sm key entry entries :
  registry sm !! key = Some entries -> entry ∉ entries ->
  registry (Register key entry sm) = <[key := entries ++ [entry]]> (registry sm).
Proof.
  intros E Hn. unfold Register. rewrite E.
  apply has_entry_false in Hn. rewrite Hn. reflexivity.
Qed.

Lemma Register_present sm key entry entries :
  registry sm !! key = Some entries -> entry ∈ entries ->
  Register key entry sm = sm.
Proof.
  intros E Hin. unfold Register. rewrite E.
  apply has_entry_true in Hin. rewrite Hin. reflexivity.
Qed.


Lemma Deregister_stale sm key entry :
  entry ∉ entries_of sm key -> Deregister key entry sm = sm.
Proof.
  unfold entries_of, Deregister. intros Hn.
  destruct (registry sm !! key) as [entries|]; [|reflexivity].
  cbn in Hn. apply index_of_None in Hn. rewrite Hn. reflexivity.
Qed.





End Registry.

Section RegistryClaims.

Implicit Types (sm : SnapManager) (key : SnapKey) (entry : SnapEntry).

Lemma HasRegistered_false sm key :
  HasRegistered sm key = false <-> registry sm !! key = None.
Proof.
  unfold HasRegistered. destruct (registry sm !! key); split; congruence.
Qed.







End RegistryClaims.

(** ** Store bootstrap *)

Section BootstrapClaims.

Variable storeIdentKey : string.
Variable Marshal : StoreIdent -> string.

Lemma BootstrapStore_bootstrapped engines clusterID storeID :
  is_Some (kv engines !! storeIdentKey) ->
  BootstrapStore storeIdentKey Marshal engines clusterID storeID
  = (Some (Errorf "already bootstrapped"), engines).
Proof. intros [v Hv]. unfold BootstrapStore. rewrite Hv. reflexivity. Qed.

(** C7. On a fresh store (no store identity key yet) [BootstrapStore]
    succeeds; invoked a second time with the same arguments it returns the
    non-nil "already bootstrapped" error and leaves the persisted state
    exactly as the first call left it. *)
Theorem BootstrapStore_second_call_fails engines clusterID storeID :
  kv engines !! storeIdentKey = None ->
  exists engines1,
    BootstrapStore storeIdentKey Marshal engines clusterID storeID
    = (None, engines1)
    /\ kv engines1 !! storeIdentKey
       = Some (Marshal (mkStoreIdent clusterID storeID))
    /\ BootstrapStore storeIdentKey Marshal engines1 clusterID storeID
       = (Some (Errorf "already bootstrapped"), engines1).
Proof.
  intros Hfresh. unfold BootstrapStore at 1. rewrite Hfresh.
  eexists. split; [reflexivity|]. cbn [kv].
  split; [apply lookup_insert_eq|].
  apply BootstrapStore_bootstrapped. cbn [kv].
  rewrite lookup_insert_eq. eauto.
Qed.

End BootstrapClaims.

(** ** [sort.Slice] *)

Section Sorting.

Context {A : Type}.
Variable less : A -> A -> bool.

(** A total preorder the comparison closure agrees with: a positive answer
    means "not after", a negative one "not before". *)
Variable le : A -> A -> Prop.
Hypothesis le_trans : forall x y z, le x y -> le y z -> le x z.
Hypothesis less_true : forall x y, less x y = true -> le x y.
Hypothesis less_false : forall x y, less x y = false -> le y x.

Lemma insert_back_perm x rprefix :
  Permutation (insert_back less x rprefix) (x :: rprefix).
Proof.
  induction rprefix as [|y t IH]; cbn [insert_back].
  - reflexivity.
  - destruct (less x y); [|reflexivity].
    rewrite IH. apply perm_swap.
Qed.

Lemma fold_insert_perm l acc :
  Permutation (fold_left (fun rp a => insert_back less a rp) l acc) (l ++ acc).
Proof.
  revert acc. induction l as [|a l IH]; intros acc; cbn [fold_left app].
  - reflexivity.
  - rewrite IH, insert_back_perm. symmetry. apply Permutation_middle.
Qed.

Lemma sort_Slice_perm l : Permutation (sort_Slice less l) l.
Proof.
  unfold sort_Slice. rewrite <- Permutation_rev, fold_insert_perm.
  now rewrite app_nil_r.
Qed.

(** The reversed prefix is kept descending. *)
Lemma insert_back_descending x rprefix :
  StronglySorted (fun a b => le b a) rprefix ->
  StronglySorted (fun a b => le b a) (insert_back less x rprefix).
Proof.
  induction rprefix as [|y t IH]; intros Hs; cbn [insert_back].
  - repeat constructor.
  - inversion Hs as [|? ? Hst Hall]; subst.
    rewrite List.Forall_forall in Hall.
    destruct (less x y) eqn:E.
    + apply less_true in E. constructor; [now apply IH|].
      apply List.Forall_forall. intros z Hz.
      apply (Permutation_in _ (insert_back_perm x t)) in Hz.
      destruct Hz as [<-|Hz]; [exact E|]. now apply Hall.
    + apply less_false in E. constructor; [exact Hs|].
      constructor; [exact E|].
      apply List.Forall_forall. intros z Hz.
      eapply le_trans; [apply Hall, Hz | exact E].
Qed.

Lemma fold_insert_descending l acc :
  StronglySorted (fun a b => le b a) acc ->
  StronglySorted (fun a b => le b a)
    (fold_left (fun rp a => insert_back less a rp) l acc).
Proof.
  revert acc. induction l as [|a l IH]; intros acc Hs; cbn [fold_left].
  - exact Hs.
  - apply IH, insert_back_descending, Hs.
Qed.

Lemma sorted_snoc r a :
  (forall z, In z r -> le z a) ->
  StronglySorted le r -> StronglySorted le (r ++ [a]).
Proof.
  induction r as [|b r IHr]; intros Hle Hs; cbn [app].
  - repeat constructor.
  - inversion Hs as [|? ? Hs' Hall']; subst. constructor.
    + apply IHr; [intros z Hz; apply Hle; now right | exact Hs'].
    + apply List.Forall_forall. intros z Hz. apply in_app_or in Hz as [Hz|Hz].
      * rewrite List.Forall_forall in Hall'. now apply Hall'.
      * destruct Hz as [<-|[]]. apply Hle. now left.
Qed.

Lemma descending_rev l :
  StronglySorted (fun a b => le b a) l -> StronglySorted le (rev l).
Proof.
  induction 1 as [|a l Hs IH Hall]; cbn [rev].
  - constructor.
  - apply sorted_snoc; [|exact IH].
    intros z Hz. apply in_rev in Hz.
    rewrite List.Forall_forall in Hall. now apply Hall.
Qed.

Lemma sort_Slice_sorted l : StronglySorted le (sort_Slice less l).
Proof.
  unfold sort_Slice. apply descending_rev, fold_insert_descending. constructor.
Qed.

End Sorting.

(** ** Listing the idle snapshots *)

Section IdleOrder.

Lemma key_lt_trans a b c : key_lt a b -> key_lt b c -> key_lt a c.
Proof. unfold key_lt. lia. Qed.

Lemma key_trichotomy a b : key_lt a b \/ a = b \/ key_lt b a.
Proof.
  destruct a as [r1 t1 i1], b as [r2 t2 i2]. unfold key_lt. cbn.
  destruct (Z.lt_trichotomy r1 r2) as [?|[->|?]]; [lia| |lia].
  destruct (Z.lt_trichotomy t1 t2) as [?|[->|?]]; [lia| |lia].
  destruct (Z.lt_trichotomy i1 i2) as [?|[->|?]]; [lia| |lia].
  right. left. reflexivity.
Qed.

Lemma idle_le_trans x y z : idle_le x y -> idle_le y z -> idle_le x z.
Proof.
  unfold idle_le. intros [Hxy | [Exy Sxy]] [Hyz | [Eyz Syz]].
  - left. eapply key_lt_trans; eassumption.
  - left. now rewrite <- Eyz.
  - left. now rewrite Exy.
  - right. split; [congruence | auto].
Qed.

Lemma idle_less_true x y : idle_less x y = true -> idle_le x y.
Proof.
  unfold idle_less, idle_le, key_lt.
  destruct x as [[r1 t1 i1] s1], y as [[r2 t2 i2] s2]. cbn.
  destruct (Z.eqb_spec r1 r2) as [->|?]; [|intros ?%Z.ltb_lt; lia].
  destruct (Z.eqb_spec t1 t2) as [->|?]; [|intros ?%Z.ltb_lt; lia].
  destruct (Z.eqb_spec i1 i2) as [->|?]; [|intros ?%Z.ltb_lt; lia].
  intros Hs. right. split; [reflexivity|].
  destruct s1; [discriminate | discriminate].
Qed.

Lemma idle_less_false x y : idle_less x y = false -> idle_le y x.
Proof.
  unfold idle_less, idle_le, key_lt.
  destruct x as [[r1 t1 i1] s1], y as [[r2 t2 i2] s2]. cbn.
  destruct (Z.eqb_spec r1 r2) as [->|?]; [|intros ?%Z.ltb_ge; lia].
  destruct (Z.eqb_spec t1 t2) as [->|?]; [|intros ?%Z.ltb_ge; lia].
  destruct (Z.eqb_spec i1 i2) as [->|?]; [|intros ?%Z.ltb_ge; lia].
  intros Hs. right. split; [reflexivity|].
  destruct s1; [reflexivity | discriminate].
Qed.

End IdleOrder.

Section Listing.

Context `{SnapshotIO}.
Variables metaFileSuffix snapGenPrefix : string.

Lemma parse_idle_unregistered sm fi k :
  parse_idle metaFileSuffix snapGenPrefix sm fi = Ok (Some k) ->
  registry sm !! SnapKeyOf k = None.
Proof.
  unfold parse_idle. intros Hp.
  repeat case_match; try discriminate.
  injection Hp as <-. cbn. assumption.
Qed.

Lemma list_idle_loop_unregistered sm fis acc results :
  (forall k, In k acc -> registry sm !! SnapKeyOf k = None) ->
  list_idle_loop metaFileSuffix snapGenPrefix sm fis acc = Ok results ->
  forall k, In k results -> registry sm !! SnapKeyOf k = None.
Proof.
  revert acc. induction fis as [|fi rest IH]; intros acc Hacc; cbn [list_idle_loop].
  - intros [= <-]. exact Hacc.
  - destruct (parse_idle metaFileSuffix snapGenPrefix sm fi) as [[k'|]|e] eqn:Hp;
      [| |discriminate].
    + apply IH. intros k Hk. apply in_app_or in Hk as [Hk|[<-|[]]]; [now apply Hacc|].
      eapply parse_idle_unregistered, Hp.
    + now apply IH.
Qed.

Lemma ListIdleSnap_inv w results :
  ListIdleSnap metaFileSuffix snapGenPrefix w = Ok results ->
  exists fis unsorted,
    ReadDir (snd w) (base (fst w)) = Ok fis
    /\ list_idle_loop metaFileSuffix snapGenPrefix (fst w) fis [] = Ok unsorted
    /\ results = sort_Slice idle_less unsorted.
Proof.
  destruct w as [sm d]. unfold ListIdleSnap. cbn [fst snd].
  destruct (ReadDir d (base sm)) as [fis|e]; [|discriminate].
  destruct (list_idle_loop _ _ sm fis []) as [unsorted|e] eqn:Hloop; [|discriminate].
  intros [= <-]. exists fis, unsorted. auto.
Qed.

Lemma StronglySorted_nth {B} (R : B -> B -> Prop) (l : list B) (i j : nat) a b :
  StronglySorted R l -> (i < j)%nat -> l !! i = Some a -> l !! j = Some b -> R a b.
Proof.
  intros Hs. revert i j. induction Hs as [|x l Hs IH Hall]; intros i j Hij Ha Hb.
  - discriminate.
  - destruct j as [|j]; [lia|]. cbn in Hb. destruct i as [|i]; cbn in Ha.
    + injection Ha as <-. rewrite List.Forall_forall in Hall.
      apply Hall. apply list_elem_of_In. eapply list_elem_of_lookup_2, Hb.
    + apply (IH i j); [lia | assumption | assumption].
Qed.

Lemma ListIdleSnap_unregistered (w : World) results :
  ListIdleSnap metaFileSuffix snapGenPrefix w = Ok results ->
  forall k, In k results -> registry (fst w) !! SnapKeyOf k = None.
Proof.
  intros Hl k Hk.
  destruct (ListIdleSnap_inv w results Hl) as (fis & unsorted & _ & Hloop & ->).
  apply (Permutation_in _ (sort_Slice_perm idle_less unsorted)) in Hk.
  eapply list_idle_loop_unregistered; [|exact Hloop|exact Hk].
  intros ? [].
Qed.

(** C4. Whatever the directory and the registry hold, a list returned by
    [ListIdleSnap] contains no key present in the registry, and it is sorted
    ascending by (RegionID, Term, Index); of two results with the same
    RegionID, Term and Index the receiving-side (non-sending) one never comes
    after the sending-side one. *)
Theorem ListIdleSnap_unregistered_sorted (w : World) results :
  ListIdleSnap metaFileSuffix snapGenPrefix w = Ok results ->
  (forall k, In k results -> HasRegistered (fst w) (SnapKeyOf k) = false)
  /\ StronglySorted idle_le results
  /\ (forall (i j : nat) a b,
        (i < j)%nat -> results !! i = Some a -> results !! j = Some b ->
        (key_lt (SnapKeyOf a) (SnapKeyOf b) \/ SnapKeyOf a = SnapKeyOf b)
        /\ (SnapKeyOf a = SnapKeyOf b -> IsSending b = false -> IsSending a = false)).
Proof.
  intros Hl. pose proof (ListIdleSnap_unregistered w results Hl) as Hunreg.
  destruct (ListIdleSnap_inv w results Hl) as (fis & unsorted & _ & Hloop & ->).
  assert (Hsorted : StronglySorted idle_le (sort_Slice idle_less unsorted)).
  { apply sort_Slice_sorted.
    - exact idle_le_trans.
    - exact idle_less_true.
    - exact idle_less_false. }
  split; [|split].
  - intros k Hk. apply HasRegistered_false. now apply Hunreg.
  - exact Hsorted.
  - intros i j a b Hij Ha Hb.
    assert (Hle : idle_le a b).
    { apply (StronglySorted_nth idle_le (sort_Slice idle_less unsorted) i j);
        assumption. }
    destruct Hle as [Hlt | [Heq Hs]].
    + split; [now left|]. intros Heq. exfalso.
      rewrite Heq in Hlt. unfold key_lt in Hlt. lia.
    + split; [now right|]. intros _ Hb'. destruct (IsSending a); [|reflexivity].
      rewrite Hs in Hb' by reflexivity. discriminate.
Qed.

End Listing.

(** ** Quota eviction *)

Section EvictionClaims.

Context `{SnapshotIO}.
Variables metaFileSuffix snapGenPrefix : string.

Implicit Types (w : World) (snaps : list snapWithModTime).

Lemma evict_loop_eq snaps w :
  evict_loop snaps w =
  if GetTotalSnapSize (fst w) >? MaxTotalSize (fst w) then
    match snaps with
    | [] => (Some (Errorf "too many snapshots"), w)
    | oldest :: snaps' =>
        evict_loop snaps'
          (snd (DeleteSnapshot (swm_key oldest) (swm_snap oldest) false w))
    end
  else (None, w).
Proof. destruct snaps; reflexivity. Qed.

Lemma over_quota_gtb w :
  (GetTotalSnapSize (fst w) >? MaxTotalSize (fst w)) = true <-> over_quota w.
Proof.
  unfold over_quota.
  destruct (Z.gtb_spec (GetTotalSnapSize (fst w)) (MaxTotalSize (fst w)));
    split; (congruence || lia).
Qed.

Lemma DeleteSnapshot_unregistered key snapshot w :
  registry (fst w) !! key = None ->
  DeleteSnapshot key snapshot false w
  = (true, delete_one w (mkSnapWithModTime key snapshot 0)).
Proof.
  destruct w as [sm d]. cbn [fst]. intros E.
  unfold DeleteSnapshot, delete_one. rewrite E. cbn [fst snd swm_snap].
  destruct (Snapshot_Delete snapshot d (snapSize sm)); reflexivity.
Qed.

Lemma delete_one_registry w s : registry (fst (delete_one w s)) = registry (fst w).
Proof.
  unfold delete_one.
  destruct (Snapshot_Delete (swm_snap s) (snd w) (snapSize (fst w))); reflexivity.
Qed.

Lemma delete_one_modTime w key snapshot t :
  delete_one w (mkSnapWithModTime key snapshot t)
  = delete_one w (mkSnapWithModTime key snapshot 0).
Proof. reflexivity. Qed.

(** The second loop deletes a prefix of its candidates, one at a time and
    only while the total is above the quota. *)
Lemma evict_loop_prefix snaps w :
  (forall s, In s snaps -> registry (fst w) !! swm_key s = None) ->
  exists deleted kept,
    snaps = deleted ++ kept
    /\ snd (evict_loop snaps w) = delete_all w deleted
    /\ (forall pre post, deleted = pre ++ post -> post <> [] ->
                         over_quota (delete_all w pre))
    /\ ((fst (evict_loop snaps w) = None
         /\ ~ over_quota (delete_all w deleted))
        \/ (fst (evict_loop snaps w) = Some (Errorf "too many snapshots")
            /\ kept = [] /\ over_quota (delete_all w deleted))).
Proof.
  revert w. induction snaps as [|s rest IH]; intros w Hreg; rewrite evict_loop_eq.
  - exists [], []. destruct (_ >? _) eqn:E.
    + apply over_quota_gtb in E. repeat split; cbn.
      * intros pre post Hp Hne. destruct pre, post; try discriminate. congruence.
      * right. auto.
    + assert (~ over_quota w) by (rewrite <- over_quota_gtb; congruence).
      repeat split; cbn.
      * intros pre post Hp Hne. destruct pre, post; try discriminate. congruence.
      * left. auto.
  - destruct (_ >? _) eqn:E.
    + apply over_quota_gtb in E.
      rewrite DeleteSnapshot_unregistered by (apply Hreg; now left).
      cbn [snd]. destruct s as [k sn t]. cbn [swm_key swm_snap].
      rewrite <- (delete_one_modTime w k sn t).
      set (s := mkSnapWithModTime k sn t) in *.
      destruct (IH (delete_one w s)) as (deleted & kept & Hsplit & Hsnd & Hpre & Hres).
      { intros s' Hs'. rewrite delete_one_registry. apply Hreg. now right. }
      exists (s :: deleted), kept. split; [cbn; congruence|].
      split; [exact Hsnd|]. split; [|exact Hres].
      intros pre post Hp Hne. destruct pre as [|p pre]; [exact E|].
      cbn in Hp. injection Hp as <- ->. cbn. exact (Hpre pre post eq_refl Hne).
    + assert (~ over_quota w) by (rewrite <- over_quota_gtb; congruence).
      exists [], (s :: rest). repeat split; cbn.
      * intros pre post Hp Hne. destruct pre, post; try discriminate. congruence.
      * left. auto.
Qed.

Lemma collect_snaps_app w pre l snaps :
  collect_snaps w (pre ++ l) snaps =
  match collect_snaps w pre snaps with
  | Ok snaps' => collect_snaps w l snaps'
  | Err e => Err e
  end.
Proof.
  revert snaps. induction pre as [|x pre IH]; intros snaps; cbn [app collect_snaps].
  - reflexivity.
  - destruct (negb (IsSending x)); [apply IH|].
    destruct (GetSnapshotForSending w (SnapKeyOf x)); [|apply IH].
    destruct (Snapshot_Meta _ _); [apply IH | reflexivity].
Qed.

(** Every candidate of the first loop is a sending-flagged entry of the idle
    listing whose handle opened. *)
Lemma collect_snaps_sound w idleSnaps acc snaps :
  collect_snaps w idleSnaps acc = Ok snaps ->
  forall s, In s snaps ->
    In s acc
    \/ (In (mkSnapKeyWithSending (swm_key s) true) idleSnaps
        /\ GetSnapshotForSending w (swm_key s) = Ok (swm_snap s)
        /\ exists fi, Snapshot_Meta (swm_snap s) (snd w) = Ok fi
                      /\ swm_modTime s = ModTime fi).
Proof.
  revert acc. induction idleSnaps as [|x rest IH]; intros acc; cbn [collect_snaps].
  - intros [= <-] s Hs. now left.
  - destruct x as [k sending]. cbn [IsSending SnapKeyOf].
    assert (Hskip : collect_snaps w rest acc = Ok snaps ->
                    forall s, In s snaps ->
                      In s acc
                      \/ (In (mkSnapKeyWithSending (swm_key s) true)
                             (mkSnapKeyWithSending k sending :: rest)
                          /\ GetSnapshotForSending w (swm_key s) = Ok (swm_snap s)
                          /\ exists fi, Snapshot_Meta (swm_snap s) (snd w) = Ok fi
                                        /\ swm_modTime s = ModTime fi)).
    { intros Hc s Hs. destruct (IH _ Hc s Hs) as [Hl | (Hin & Hrest)]; [now left|].
      right. split; [now right | exact Hrest]. }
    destruct sending; cbn [negb]; [|exact Hskip].
    destruct (GetSnapshotForSending w k) as [snap|e] eqn:Hopen; [|exact Hskip].
    destruct (Snapshot_Meta snap (snd w)) as [fi|e] eqn:Hmeta; [|discriminate].
    intros Hc s Hs. destruct (IH _ Hc s Hs) as [Hl | (Hin & Hrest)].
    + apply in_app_or in Hl as [Hl | [<- | []]]; [now left|].
      right. cbn. split; [now left|]. split; [exact Hopen|]. eauto.
    + right. split; [now right | exact Hrest].
Qed.

Lemma modTime_Before_true (a b : snapWithModTime) :
  modTime_Before a b = true -> modTime_le a b.
Proof. unfold modTime_Before, modTime_le. intros ?%Z.ltb_lt. lia. Qed.

Lemma modTime_Before_false (a b : snapWithModTime) :
  modTime_Before a b = false -> modTime_le b a.
Proof. unfold modTime_Before, modTime_le. intros ?%Z.ltb_ge. lia. Qed.

Lemma modTime_le_trans (a b c : snapWithModTime) :
  modTime_le a b -> modTime_le b c -> modTime_le a c.
Proof. unfold modTime_le. lia. Qed.

Lemma candidates_of_cons w x (rest : list SnapKeyWithSending) :
  candidates_of w (x :: rest)
  = match candidate_of w x with
    | Some s => s :: candidates_of w rest
    | None => candidates_of w rest
    end.
Proof. unfold candidates_of. cbn. destruct (candidate_of w x); reflexivity. Qed.

(** When no opened candidate fails on its metadata, the first loop collects
    exactly the candidates of the listing, in listing order. *)
Lemma collect_snaps_exact w idleSnaps acc :
  (forall x snap, In x idleSnaps -> IsSending x = true ->
     GetSnapshotForSending w (SnapKeyOf x) = Ok snap ->
     exists fi, Snapshot_Meta snap (snd w) = Ok fi) ->
  collect_snaps w idleSnaps acc = Ok (acc ++ candidates_of w idleSnaps).
Proof.
  revert acc. induction idleSnaps as [|x rest IH]; intros acc Hread.
  - cbn. now rewrite app_nil_r.
  - assert (Hrest : forall x0 snap, In x0 rest -> IsSending x0 = true ->
              GetSnapshotForSending w (SnapKeyOf x0) = Ok snap ->
              exists fi, Snapshot_Meta snap (snd w) = Ok fi)
      by (intros x0 snap Hin; apply Hread; now right).
    rewrite candidates_of_cons. cbn [collect_snaps]. unfold candidate_of.
    destruct (IsSending x) eqn:Hs; cbn [negb]; [|now apply IH].
    destruct (GetSnapshotForSending w (SnapKeyOf x)) as [snap|e] eqn:Hopen;
      [|now apply IH].
    destruct (Hread x snap (or_introl eq_refl) Hs Hopen) as [fi Hfi].
    rewrite Hfi, (IH _ Hrest), <- app_assoc. reflexivity.
Qed.

Lemma candidates_of_complete w idleSnaps x snap fi :
  In x idleSnaps -> IsSending x = true ->
  GetSnapshotForSending w (SnapKeyOf x) = Ok snap ->
  Snapshot_Meta snap (snd w) = Ok fi ->
  In (mkSnapWithModTime (SnapKeyOf x) snap (ModTime fi)) (candidates_of w idleSnaps).
Proof.
  intros Hin Hs Hopen Hmeta. apply list_elem_of_In, list_elem_of_omap.
  exists x. split; [now apply list_elem_of_In|].
  unfold candidate_of. now rewrite Hs, Hopen, Hmeta.
Qed.

Lemma StronglySorted_app_cross {B} (R : B -> B -> Prop) (l1 l2 : list B) :
  StronglySorted R (l1 ++ l2) ->
  forall a b, In a l1 -> In b l2 -> R a b.
Proof.
  induction l1 as [|x l1 IH]; intros Hs a b Ha Hb; [destruct Ha|].
  cbn in Hs. inversion Hs as [|? ? Hs' Hall]; subst.
  destruct Ha as [<-|Ha].
  - rewrite List.Forall_forall in Hall. apply Hall. apply in_or_app. now right.
  - now apply IH.
Qed.

(** C3. When the total size exceeds [MaxTotalSize], the eviction run by
    [GetSnapshotForBuilding] takes as candidates exactly the idle,
    unregistered, sending-flagged snapshots of the listing (those whose handle
    opens), orders them by file modification time, oldest first, and deletes a
    prefix of that order, so that nothing deleted is newer than anything kept:
    every deletion happens while the total is still above the quota, so it
    stops as soon as the total is at or under it.  It ends without error
    exactly then, and with the "too many snapshots" error when all candidates
    are gone and the total is still above the quota. *)
Theorem eviction_deletes_oldest_idle_sending (key : SnapKey) (w : World)
        idleSnaps :
  over_quota w ->
  ListIdleSnap metaFileSuffix snapGenPrefix w = Ok idleSnaps ->
  (forall x snap, In x idleSnaps -> IsSending x = true ->
     GetSnapshotForSending w (SnapKeyOf x) = Ok snap ->
     exists fi, Snapshot_Meta snap (snd w) = Ok fi) ->
  exists deleted kept,
    deleted ++ kept = sort_Slice modTime_Before (candidates_of w idleSnaps)
    /\ (forall x snap fi,
          In x idleSnaps -> IsSending x = true ->
          GetSnapshotForSending w (SnapKeyOf x) = Ok snap ->
          Snapshot_Meta snap (snd w) = Ok fi ->
          In (mkSnapWithModTime (SnapKeyOf x) snap (ModTime fi)) (deleted ++ kept))
    /\ StronglySorted modTime_le (deleted ++ kept)
    /\ (forall d k, In d deleted -> In k kept -> modTime_le d k)
    /\ (forall s, In s (deleted ++ kept) ->
          In (mkSnapKeyWithSending (swm_key s) true) idleSnaps
          /\ HasRegistered (fst w) (swm_key s) = false
          /\ GetSnapshotForSending w (swm_key s) = Ok (swm_snap s)
          /\ exists fi, Snapshot_Meta (swm_snap s) (snd w) = Ok fi
                        /\ swm_modTime s = ModTime fi)
    /\ snd (deleteOldIdleSnaps metaFileSuffix snapGenPrefix w)
       = delete_all w deleted
    /\ (forall pre post, deleted = pre ++ post -> post <> [] ->
                         over_quota (delete_all w pre))
    /\ ((fst (deleteOldIdleSnaps metaFileSuffix snapGenPrefix w) = None
         /\ ~ over_quota (delete_all w deleted))
        \/ (fst (deleteOldIdleSnaps metaFileSuffix snapGenPrefix w)
            = Some (Errorf "too many snapshots")
            /\ kept = [] /\ over_quota (delete_all w deleted)))
    /\ GetSnapshotForBuilding metaFileSuffix snapGenPrefix key w
       = match fst (deleteOldIdleSnaps metaFileSuffix snapGenPrefix w) with
         | Some err => (Err err, delete_all w deleted)
         | None =>
             (NewSnapForBuilding (snd (delete_all w deleted))
                                 (base (fst (delete_all w deleted))) key,
              delete_all w deleted)
         end.
Proof.
  intros Hover Hl Hread.
  pose proof (collect_snaps_exact w idleSnaps [] Hread) as Hc. cbn [app] in Hc.
  set (snaps := candidates_of w idleSnaps) in *.
  pose proof (ListIdleSnap_unregistered _ _ w idleSnaps Hl) as Hunreg.
  assert (Hcand : forall s, In s (sort_Slice modTime_Before snaps) ->
            In (mkSnapKeyWithSending (swm_key s) true) idleSnaps
            /\ HasRegistered (fst w) (swm_key s) = false
            /\ GetSnapshotForSending w (swm_key s) = Ok (swm_snap s)
            /\ exists fi, Snapshot_Meta (swm_snap s) (snd w) = Ok fi
                          /\ swm_modTime s = ModTime fi).
  { intros s Hs.
    apply (Permutation_in _ (sort_Slice_perm modTime_Before snaps)) in Hs.
    destruct (collect_snaps_sound w idleSnaps [] snaps Hc s Hs)
      as [[] | (Hin & Hopen & Hmeta)].
    split; [exact Hin|]. split; [|split; assumption].
    apply HasRegistered_false. exact (Hunreg _ Hin). }
  destruct (evict_loop_prefix (sort_Slice modTime_Before snaps) w)
    as (deleted & kept & Hsplit & Hsnd & Hpre & Hres).
  { intros s Hs. apply HasRegistered_false. now apply Hcand. }
  assert (Hrun : deleteOldIdleSnaps metaFileSuffix snapGenPrefix w
                 = evict_loop (sort_Slice modTime_Before snaps) w).
  { unfold deleteOldIdleSnaps. rewrite Hl, Hc. reflexivity. }
  assert (Hsorted : StronglySorted modTime_le (deleted ++ kept)).
  { rewrite <- Hsplit. apply sort_Slice_sorted.
    - exact modTime_le_trans.
    - exact modTime_Before_true.
    - exact modTime_Before_false. }
  exists deleted, kept. rewrite Hrun.
  split; [symmetry; exact Hsplit|]. split.
  { intros x snap fi Hin Hs Hopen Hmeta. rewrite <- Hsplit.
    apply (Permutation_in _ (Permutation_sym (sort_Slice_perm modTime_Before snaps))).
    exact (candidates_of_complete w idleSnaps x snap fi Hin Hs Hopen Hmeta). }
  split; [exact Hsorted|].
  split; [exact (StronglySorted_app_cross modTime_le deleted kept Hsorted)|].
  split; [intros s Hs; apply Hcand; now rewrite Hsplit|].
  split; [exact Hsnd|]. split; [exact Hpre|]. split; [exact Hres|].
  unfold GetSnapshotForBuilding.
  apply over_quota_gtb in Hover. rewrite Hover, Hrun.
  destruct (evict_loop (sort_Slice modTime_Before snaps) w) as [r w'].
  cbn [fst snd] in *. subst w'. destruct r; reflexivity.
Qed.

(** C8 (as amended). During quota eviction a candidate whose sending-role
    handle cannot be opened is skipped: the pass goes on exactly as if that
    candidate had not been listed.  The first candidate whose file metadata
    cannot be fetched aborts the pass at once with that error, nothing
    having been deleted. *)
Theorem eviction_skips_open_failure_aborts_on_meta_failure (w : World) :
  (forall pre x post e,
      ListIdleSnap metaFileSuffix snapGenPrefix w = Ok (pre ++ x :: post) ->
      GetSnapshotForSending w (SnapKeyOf x) = Err e ->
      deleteOldIdleSnaps metaFileSuffix snapGenPrefix w
      = match collect_snaps w (pre ++ post) [] with
        | Err e' => (Some e', w)
        | Ok snaps => evict_loop (sort_Slice modTime_Before snaps) w
        end)
  /\ (forall pre x post snaps snap e,
      ListIdleSnap metaFileSuffix snapGenPrefix w = Ok (pre ++ x :: post) ->
      collect_snaps w pre [] = Ok snaps ->
      IsSending x = true ->
      GetSnapshotForSending w (SnapKeyOf x) = Ok snap ->
      Snapshot_Meta snap (snd w) = Err e ->
      deleteOldIdleSnaps metaFileSuffix snapGenPrefix w = (Some e, w)).
Proof.
  split.
  - intros pre x post e Hl Hopen. unfold deleteOldIdleSnaps. rewrite Hl.
    rewrite !collect_snaps_app.
    destruct (collect_snaps w pre []) as [snaps'|e']; [|reflexivity].
    cbn [collect_snaps]. rewrite Hopen.
    destruct (negb (IsSending x)); reflexivity.
  - intros pre x post snaps snap e Hl Hpre Hs Hopen Hmeta.
    unfold deleteOldIdleSnaps. rewrite Hl, collect_snaps_app, Hpre.
    cbn [collect_snaps]. rewrite Hs, Hopen, Hmeta. reflexivity.
Qed.

End EvictionClaims.

(** ** Concrete runs *)

Section Concrete.

Import MemDisk Scenario.
Local Open Scope string_scope.

Lemma CompareInternalKey_larger_seq_first_witness :
  (bytes_Compare user_a user_a = 0 /\ is_uint8 TypeValue /\ is_uint8 TypeDeletion)
  /\ (CompareInternalKey LittleEndian bytes_Compare
        (Encode LittleEndian (mkInternalKey user_a 7 TypeValue))
        (Encode LittleEndian (mkInternalKey user_a 5 TypeDeletion)) = Some (-1)
      /\ CompareInternalKey LittleEndian bytes_Compare
           (Encode LittleEndian (mkInternalKey user_a 5 TypeDeletion))
           (Encode LittleEndian (mkInternalKey user_a 7 TypeValue)) = Some 1)
  /\ CompareInternalKey BigEndian bytes_Compare
       (Encode BigEndian (mkInternalKey user_a 7 TypeValue))
       (Encode BigEndian (mkInternalKey user_a 5 TypeDeletion)) = Some (-1)
  /\ CompareInternalKey BigEndian bytes_Compare
       (Encode BigEndian (mkInternalKey user_a 5 TypeDeletion))
       (Encode BigEndian (mkInternalKey user_a 7 TypeValue)) = Some 1.
Proof.
  assert (Hv : is_uint8 TypeValue) by (unfold is_uint8, TypeValue; lia).
  assert (Hd : is_uint8 TypeDeletion) by (unfold is_uint8, TypeDeletion; lia).
  split; [split; [reflexivity | split; assumption]|].
  split; [|split].
  - apply (proj2 (proj2 (CompareInternalKey_larger_seq_first
                           LittleEndian bytes_Compare)) user_a);
      [exact Hv | exact Hd | reflexivity].
  - apply (proj1 (CompareInternalKey_larger_seq_first BigEndian bytes_Compare)
             (mkInternalKey [] 0 0) (mkInternalKey [] 0 0) _ _
             (mkInternalKey user_a 7 TypeValue)
             (mkInternalKey user_a 5 TypeDeletion));
      [reflexivity | reflexivity | reflexivity | cbn; lia].
  - apply (proj1 (CompareInternalKey_larger_seq_first BigEndian bytes_Compare)
             (mkInternalKey [] 0 0) (mkInternalKey [] 0 0) _ _
             (mkInternalKey user_a 5 TypeDeletion)
             (mkInternalKey user_a 7 TypeValue));
      [reflexivity | reflexivity | reflexivity | cbn; lia].
Defined.

Lemma Decode_Encode_roundtrip_witness :
  (0 <= 7 < 2 ^ 56 /\ In TypeMerge [TypeDeletion; TypeValue; TypeMerge])
  /\ Decode LittleEndian (mkInternalKey [Byte.x7a] 99 TypeValue)
       (Encode LittleEndian (mkInternalKey user_a 7 TypeMerge))
     = Some (mkInternalKey user_a 7 TypeMerge).
Proof.
  assert (Hs : 0 <= 7 < 2 ^ 56) by lia.
  assert (Hv : In TypeMerge [TypeDeletion; TypeValue; TypeMerge])
    by (right; right; left; reflexivity).
  split; [split; assumption|].
  exact (Decode_Encode_roundtrip LittleEndian _ (mkInternalKey user_a 7 TypeMerge) Hs Hv).
Defined.





Lemma BootstrapStore_second_call_fails_witness :
  kv engines0 !! ident_key = None
  /\ exists engines1,
       BootstrapStore ident_key marshal_ident engines0 1 1 = (None, engines1)
       /\ kv engines1 !! ident_key = Some (marshal_ident (mkStoreIdent 1 1))
       /\ BootstrapStore ident_key marshal_ident engines1 1 1
          = (Some (Errorf "already bootstrapped"), engines1).
Proof.
  assert (Hf : kv engines0 !! ident_key = None) by reflexivity.
  split; [exact Hf|].
  exact (BootstrapStore_second_call_fails ident_key marshal_ident engines0 1 1 Hf).
Defined.

Lemma ListIdleSnap_unregistered_sorted_witness :
  ListIdleSnap ".meta" "gen" mixed = Ok mixed_idle
  /\ HasRegistered (fst mixed) key7 = true
  /\ (forall k, In k mixed_idle -> HasRegistered (fst mixed) (SnapKeyOf k) = false)
  /\ StronglySorted idle_le mixed_idle.
Proof.
  assert (Hl : ListIdleSnap ".meta" "gen" mixed = Ok mixed_idle)
    by (vm_compute; reflexivity).
  split; [exact Hl|]. split; [vm_compute; reflexivity|].
  destruct (ListIdleSnap_unregistered_sorted ".meta" "gen" mixed mixed_idle Hl)
    as (Hunreg & Hsorted & _).
  split; assumption.
Defined.

Lemma eviction_deletes_oldest_idle_sending_witness :
  over_quota quota250
  /\ deleteOldIdleSnaps ".meta" "gen" quota250 = (None, quota250_after)
  /\ exists deleted kept,
       (deleted ++ kept)%list
       = [candidate key2 10; candidate key3 20; candidate key1 30]
       /\ deleted = [candidate key2 10]
       /\ snd (deleteOldIdleSnaps ".meta" "gen" quota250)
          = delete_all quota250 deleted
       /\ ~ over_quota (delete_all quota250 deleted).
Proof.
  assert (Hover : over_quota quota250) by (vm_compute; reflexivity).
  assert (Hrun : deleteOldIdleSnaps ".meta" "gen" quota250 = (None, quota250_after))
    by (vm_compute; reflexivity).
  split; [exact Hover|]. split; [exact Hrun|].
  assert (Hread : forall x (snap : handle),
             In x [ mkSnapKeyWithSending key1 true;
                    mkSnapKeyWithSending key2 true;
                    mkSnapKeyWithSending key3 true ] ->
             IsSending x = true ->
             GetSnapshotForSending quota250 (SnapKeyOf x) = Ok snap ->
             exists fi, stat_meta snap (snd quota250) = Ok fi).
  { intros x snap [<-|[<-|[<-|[]]]] _ Hopen; vm_compute in Hopen;
      injection Hopen as <-; eexists; vm_compute; reflexivity. }
  destruct (eviction_deletes_oldest_idle_sending ".meta" "gen" key7 quota250
              [ mkSnapKeyWithSending key1 true;
                mkSnapKeyWithSending key2 true;
                mkSnapKeyWithSending key3 true ]
              Hover ltac:(vm_compute; reflexivity) Hread)
    as (deleted & kept & Hsplit & _ & _ & _ & _ & Hsnd & Hpre & Hres & _).
  exists deleted, kept.
  assert (Hnot : ~ over_quota (delete_all quota250 deleted)).
  { destruct Hres as [[_ Hn] | [Hfst _]]; [exact Hn|].
    rewrite Hrun in Hfst. discriminate. }
  change (sort_Slice modTime_Before _) with
    [candidate key2 10; candidate key3 20; candidate key1 30] in Hsplit.
  split; [exact Hsplit|]. split; [|split; assumption].
  destruct deleted as [|s1 [|s2 rest]].
  - exfalso. apply Hnot. exact Hover.
  - cbn in Hsplit. injection Hsplit as -> _. reflexivity.
  - exfalso.
    assert (Hq : over_quota (delete_all quota250 [s1]))
      by (apply (Hpre [s1] (s2 :: rest)); [reflexivity | discriminate]).
    cbn in Hsplit. injection Hsplit as -> _.
    vm_compute in Hq. discriminate.
Defined.

Lemma eviction_skips_open_failure_aborts_on_meta_failure_witness :
  (GetSnapshotForSending unloadable key1 = Err (ErrOS "load" "gen_1_1_1.meta")
   /\ deleteOldIdleSnaps ".meta" "gen" unloadable
      = match collect_snaps unloadable [mkSnapKeyWithSending key2 true] [] with
        | Err e' => (Some e', unloadable)
        | Ok snaps => evict_loop (sort_Slice modTime_Before snaps) unloadable
        end)
  /\ (stat_meta (open "gen" key1) (snd unstatable)
      = Err (ErrOS "stat" "gen_1_1_1.meta")
      /\ deleteOldIdleSnaps ".meta" "gen" unstatable
         = (Some (ErrOS "stat" "gen_1_1_1.meta"), unstatable)).
Proof.
  assert (Hopen : GetSnapshotForSending unloadable
                    (SnapKeyOf (mkSnapKeyWithSending key1 true))
                  = Err (ErrOS "load" "gen_1_1_1.meta")) by (vm_compute; reflexivity).
  assert (Hmeta : stat_meta (open "gen" key1) (snd unstatable)
                  = Err (ErrOS "stat" "gen_1_1_1.meta")) by (vm_compute; reflexivity).
  split; split; [exact Hopen | | exact Hmeta | ].
  - apply (proj1 (eviction_skips_open_failure_aborts_on_meta_failure
                    ".meta" "gen" unloadable)
             [] (mkSnapKeyWithSending key1 true) [mkSnapKeyWithSending key2 true]
             (ErrOS "load" "gen_1_1_1.meta"));
      [vm_compute; reflexivity | exact Hopen].
  - apply (proj2 (eviction_skips_open_failure_aborts_on_meta_failure
                    ".meta" "gen" unstatable)
             [] (mkSnapKeyWithSending key1 true) [mkSnapKeyWithSending key2 true]
             [] (open "gen" key1));
      [vm_compute; reflexivity | reflexivity | reflexivity
       | vm_compute; reflexivity | exact Hmeta].
Defined.

(** C8, counterexample: the handle of the first candidate cannot be
    opened, yet the pass does not abort with that error; it goes on, deletes
    the second candidate and ends without error. *)
Lemma eviction_continues_after_open_failure :
  ListIdleSnap ".meta" "gen" unloadable
  = Ok [mkSnapKeyWithSending key1 true; mkSnapKeyWithSending key2 true]
  /\ GetSnapshotForSending unloadable key1 = Err (ErrOS "load" "gen_1_1_1.meta")
  /\ deleteOldIdleSnaps ".meta" "gen" unloadable = (None, unloadable_after)
  /\ unloadable_after <> unloadable.
Proof.
  split; [vm_compute; reflexivity|]. split; [vm_compute; reflexivity|].
  split; [vm_compute; reflexivity|]. discriminate.
Qed.

End Concrete.

(** ** More on the internal-key codec *)

Section CodecMore.

Variable rocksEndian : ByteOrder.

Lemma Z_to_byte_to_Z b : Z_to_byte (byte_to_Z b) = b.
Proof.
  unfold Z_to_byte. rewrite Z.mod_small by apply byte_to_Z_range.
  unfold byte_to_Z. rewrite N2Z.id, Byte.of_to_N. reflexivity.
Qed.

Lemma le_encode_decode l : le_encode (length l) (le_decode l) = l.
Proof.
  induction l as [|b t IH]; [reflexivity|].
  cbn [length le_encode]. rewrite le_decode_arith.
  pose proof (byte_to_Z_range b) as Hb.
  f_equal.
  - unfold Z_to_byte.
    replace ((byte_to_Z b + 256 * le_decode t) mod 256) with (byte_to_Z b)
      by (rewrite Z.mul_comm, Z.mod_add by lia; symmetry; apply Z.mod_small; lia).
    unfold byte_to_Z. rewrite N2Z.id, Byte.of_to_N. reflexivity.
  - rewrite Z.shiftr_div_pow2 by lia. change (2 ^ 8) with 256.
    replace ((byte_to_Z b + 256 * le_decode t) / 256) with (le_decode t); [exact IH|].
    rewrite Z.mul_comm, Z.div_add by lia. rewrite Z.div_small by lia. lia.
Qed.

Lemma PutUint64_Uint64 b : length b = 8%nat -> PutUint64 rocksEndian (Uint64 rocksEndian b) = b.
Proof.
  intros Hlen. assert (Ht : take 8 b = b) by (apply take_ge; lia).
  destruct rocksEndian; unfold PutUint64, Uint64; rewrite Ht.
  - rewrite <- Hlen at 1. apply le_encode_decode.
  - replace 8%nat with (length (rev b)) by (rewrite length_rev; exact Hlen).
    rewrite le_encode_decode. apply rev_involutive.
Qed.

Lemma Uint64_inj b1 b2 :
  length b1 = 8%nat -> length b2 = 8%nat ->
  Uint64 rocksEndian b1 = Uint64 rocksEndian b2 -> b1 = b2.
Proof.
  intros H1 H2 Heq.
  rewrite <- (PutUint64_Uint64 b1 H1), <- (PutUint64_Uint64 b2 H2). now rewrite Heq.
Qed.

Lemma trailer_length (key : list Byte.byte) :
  (8 <= length key)%nat -> length (drop (length key - 8) key) = 8%nat.
Proof. intros Hl. rewrite length_drop. lia. Qed.

(** Splitting a packed number and packing it again gives it back. *)
Lemma pack_unpack ik v :
  0 <= v < two64 -> packSeqAndType (unpackSeqAndType ik v) = v.
Proof.
  intros Hv. unfold packSeqAndType, unpackSeqAndType, u64, two64 in *.
  cbn [SequenceNumber ValueTypeOf].
  rewrite Z.shiftr_div_pow2, Z.shiftl_mul_pow2 by lia. change (2 ^ 8) with 256.
  change 255 with (Z.ones 8). rewrite Z.land_ones by lia. change (2 ^ 8) with 256.
  assert (Hd : 0 <= v / 256 < 2 ^ 56).
  { split; [apply Z.div_pos; lia|]. apply Z.div_lt_upper_bound; lia. }
  rewrite Z.mod_small by lia.
  rewrite Z.lor_comm.
  replace (v / 256 * 256) with (Z.shiftl (v / 256) 8)
    by (rewrite Z.shiftl_mul_pow2 by lia; reflexivity).
  rewrite lor_byte_shift by (apply Z.mod_pos_bound; lia).
  pose proof (Z.div_mod v 256 ltac:(lia)). lia.
Qed.

(** What [Encode] stores of a sequence number: its low 56 bits. *)
Lemma pack_truncates ik :
  0 <= SequenceNumber ik < two64 -> is_uint8 (ValueTypeOf ik) ->
  packSeqAndType ik = ValueTypeOf ik + 256 * (SequenceNumber ik mod 2 ^ 56).
Proof.
  intros Hs Hv. unfold packSeqAndType, u64, two64 in *.
  rewrite Z.shiftl_mul_pow2 by lia. change (2 ^ 8) with 256.
  replace ((SequenceNumber ik * 256) mod 2 ^ 64)
    with (Z.shiftl (SequenceNumber ik mod 2 ^ 56) 8).
  - rewrite Z.lor_comm. apply lor_byte_shift. exact Hv.
  - rewrite Z.shiftl_mul_pow2 by lia. change (2 ^ 8) with 256.
    change (2 ^ 64) with (2 ^ 56 * 256).
    rewrite Z.mul_mod_distr_r by lia. reflexivity.
Qed.

(** X1. [Decode] panics exactly on inputs shorter than eight bytes; on any
    other input it yields the input without its last eight bytes as user key,
    a sequence number below 2^56 and a value type that fits a byte. *)
Theorem Decode_bounds (old : InternalKey) (encoded : list Byte.byte) :
  (Decode rocksEndian old encoded = None <-> (length encoded < 8)%nat)
  /\ (forall ik, Decode rocksEndian old encoded = Some ik ->
        UserKey ik = take (length encoded - 8) encoded
        /\ 0 <= SequenceNumber ik < 2 ^ 56
        /\ is_uint8 (ValueTypeOf ik)).
Proof.
  unfold Decode. destruct (Nat.ltb_spec (length encoded) 8) as [Hlt|Hge].
  - split; [split; [intros _; exact Hlt | reflexivity] | discriminate].
  - split; [split; [discriminate | lia]|].
    intros ik [= <-]. cbn [unpackSeqAndType UserKey SequenceNumber ValueTypeOf].
    pose proof (Uint64_range rocksEndian (drop (length encoded - 8) encoded)) as Hr.
    unfold two64 in Hr. split; [reflexivity|]. split.
    + rewrite Z.shiftr_div_pow2 by lia. change (2 ^ 8) with 256. split.
      * apply Z.div_pos; lia.
      * apply Z.div_lt_upper_bound; lia.
    + unfold is_uint8. change 255 with (Z.ones 8). rewrite Z.land_ones by lia.
      apply Z.mod_pos_bound. lia.
Qed.

(** X2. Encoding what [Decode] produced gives back the very bytes that
    were decoded: on inputs of at least eight bytes [Encode] undoes
    [Decode]. *)
Theorem Encode_Decode_roundtrip (old ik : InternalKey) (encoded : list Byte.byte) :
  Decode rocksEndian old encoded = Some ik ->
  Encode rocksEndian ik = encoded.
Proof.
  unfold Decode. destruct (Nat.ltb_spec (length encoded) 8) as [Hlt|Hge]; [discriminate|].
  intros [= <-]. unfold Encode.
  rewrite pack_unpack by apply Uint64_range.
  cbn [unpackSeqAndType UserKey].
  rewrite PutUint64_Uint64 by (apply trailer_length; exact Hge).
  cbn [take app]. apply take_drop.
Qed.

Lemma Decode_Encode_truncated (old ik : InternalKey) :
  0 <= SequenceNumber ik < two64 -> is_uint8 (ValueTypeOf ik) ->
  Decode rocksEndian old (Encode rocksEndian ik)
  = Some {| UserKey := UserKey ik;
            SequenceNumber := SequenceNumber ik mod 2 ^ 56;
            ValueTypeOf := ValueTypeOf ik |}.
Proof.
  intros Hs Hv. unfold Decode.
  assert (Hlen : (length (Encode rocksEndian ik) <? 8)%nat = false)
    by (apply Nat.ltb_ge; rewrite Encode_length; lia).
  rewrite Hlen, Encode_packed_part, Encode_user_part.
  rewrite pack_truncates by assumption.
  assert (Hm : 0 <= SequenceNumber ik mod 2 ^ 56 < 2 ^ 56)
    by (apply Z.mod_pos_bound; lia).
  unfold unpackSeqAndType, u64, two64. cbn [UserKey SequenceNumber ValueTypeOf].
  unfold is_uint8 in Hv.
  rewrite Z.mod_small by lia.
  rewrite Z.shiftr_div_pow2 by lia. change (2 ^ 8) with 256.
  change 255 with (Z.ones 8). rewrite Z.land_ones by lia. change (2 ^ 8) with 256.
  f_equal. f_equal.
  - rewrite Z.mul_comm, Z.div_add by lia. rewrite Z.div_small by lia. lia.
  - rewrite Z.mul_comm, Z.mod_add by lia. apply Z.mod_small. lia.
Qed.

(** X3. [Encode] keeps only the low 56 bits of the sequence number: for any
    64-bit sequence number and any value type byte, decoding the encoding
    gives the same user key and value type and the sequence number modulo
    2^56; a sequence number of 2^56 or more is therefore not recovered. *)
Theorem Encode_truncates_sequence_number (old ik : InternalKey) :
  0 <= SequenceNumber ik < 2 ^ 64 -> is_uint8 (ValueTypeOf ik) ->
  Decode rocksEndian old (Encode rocksEndian ik)
  = Some {| UserKey := UserKey ik;
            SequenceNumber := SequenceNumber ik mod 2 ^ 56;
            ValueTypeOf := ValueTypeOf ik |}
  /\ (2 ^ 56 <= SequenceNumber ik ->
      Decode rocksEndian old (Encode rocksEndian ik) <> Some ik).
Proof.
  intros Hs Hv. rewrite (Decode_Encode_truncated old ik Hs Hv). split; [reflexivity|].
  destruct ik as [uk sq vt]. cbn [UserKey SequenceNumber ValueTypeOf] in *.
  intros Hbig [= Heq].
  pose proof (Z.mod_pos_bound sq (2 ^ 56) ltac:(lia)). lia.
Qed.

Lemma CompareInternalKey_long (c : Comparator) key1 key2 :
  (8 <= length key1)%nat -> (8 <= length key2)%nat ->
  CompareInternalKey rocksEndian c key1 key2 =
  let cmp := c (take (length key1 - 8) key1) (take (length key2 - 8) key2) in
  let num1 := Uint64 rocksEndian (drop (length key1 - 8) key1) in
  let num2 := Uint64 rocksEndian (drop (length key2 - 8) key2) in
  if cmp =? 0 then
    if num1 >? num2 then Some (-1) else if num1 <? num2 then Some 1 else Some cmp
  else Some cmp.
Proof.
  intros H1 H2. unfold CompareInternalKey.
  apply Nat.ltb_ge in H1, H2. rewrite H1, H2. reflexivity.
Qed.

Lemma packed_split v : v = 256 * Z.shiftr v 8 + Z.land v 255.
Proof.
  rewrite Z.shiftr_div_pow2 by lia. change (2 ^ 8) with 256.
  change 255 with (Z.ones 8). rewrite Z.land_ones by lia. change (2 ^ 8) with 256.
  apply Z.div_mod. lia.
Qed.

(** X4. Between two keys whose user-key parts compare equal and whose
    sequence numbers are equal, [CompareInternalKey] puts the larger value type
    first: it returns -1 when the first key has the larger type and +1 when it
    has the smaller one. *)
Theorem CompareInternalKey_larger_type_first (c : Comparator)
        old1 old2 key1 key2 ik1 ik2 :
  Decode rocksEndian old1 key1 = Some ik1 ->
  Decode rocksEndian old2 key2 = Some ik2 ->
  c (UserKey ik1) (UserKey ik2) = 0 ->
  SequenceNumber ik1 = SequenceNumber ik2 ->
  (ValueTypeOf ik1 > ValueTypeOf ik2 ->
   CompareInternalKey rocksEndian c key1 key2 = Some (-1))
  /\ (ValueTypeOf ik1 < ValueTypeOf ik2 ->
      CompareInternalKey rocksEndian c key1 key2 = Some 1).
Proof.
  intros D1 D2 Hc Hseq. unfold Decode in D1, D2.
  destruct (Nat.ltb_spec (length key1) 8) as [|L1]; [discriminate|].
  destruct (Nat.ltb_spec (length key2) 8) as [|L2]; [discriminate|].
  injection D1 as <-. injection D2 as <-.
  cbn [unpackSeqAndType UserKey SequenceNumber ValueTypeOf] in Hc, Hseq |- *.
  change (c (take (length key1 - 8) key1) (take (length key2 - 8) key2) = 0) in Hc.
  rewrite (CompareInternalKey_long c key1 key2 L1 L2). cbn zeta.
  rewrite Hc. cbn [Z.eqb].
  pose proof (packed_split (Uint64 rocksEndian (drop (length key1 - 8) key1))).
  pose proof (packed_split (Uint64 rocksEndian (drop (length key2 - 8) key2))).
  split; intros Hvt.
  - destruct (Z.gtb_spec (Uint64 rocksEndian (drop (length key1 - 8) key1))
                         (Uint64 rocksEndian (drop (length key2 - 8) key2)));
      [reflexivity | lia].
  - destruct (Z.gtb_spec (Uint64 rocksEndian (drop (length key1 - 8) key1))
                         (Uint64 rocksEndian (drop (length key2 - 8) key2))); [lia|].
    destruct (Z.ltb_spec (Uint64 rocksEndian (drop (length key1 - 8) key1))
                         (Uint64 rocksEndian (drop (length key2 - 8) key2)));
      [reflexivity | lia].
Qed.

(** X5. For two keys of at least eight bytes, [CompareInternalKey] returns 0
    exactly when the comparator finds the user-key parts equal and the last
    eight bytes of the two keys are the same. *)
Theorem CompareInternalKey_zero_iff (c : Comparator) key1 key2 :
  (8 <= length key1)%nat -> (8 <= length key2)%nat ->
  CompareInternalKey rocksEndian c key1 key2 = Some 0
  <-> c (take (length key1 - 8) key1) (take (length key2 - 8) key2) = 0
      /\ drop (length key1 - 8) key1 = drop (length key2 - 8) key2.
Proof.
  intros L1 L2. rewrite (CompareInternalKey_long c key1 key2 L1 L2). cbn zeta.
  set (cmp := c _ _).
  set (t1 := drop (length key1 - 8) key1). set (t2 := drop (length key2 - 8) key2).
  destruct (Z.eqb_spec cmp 0) as [Hc|Hc].
  - destruct (Z.gtb_spec (Uint64 rocksEndian t1) (Uint64 rocksEndian t2)) as [Hgt|Hle].
    + split; [discriminate|]. intros [_ Ht]. rewrite Ht in Hgt. lia.
    + destruct (Z.ltb_spec (Uint64 rocksEndian t1) (Uint64 rocksEndian t2)) as [Hlt|Hge].
      * split; [discriminate|]. intros [_ Ht]. rewrite Ht in Hlt. lia.
      * split; [|intros _; now rewrite Hc].
        intros _. split; [exact Hc|].
        apply Uint64_inj; [now apply trailer_length | now apply trailer_length | lia].
  - split; [intros [= H0]; contradiction | intros [H0 _]; contradiction].
Qed.

(** X6. [CompareInternalKey] is antisymmetric wherever the comparator is: for
    two keys of at least eight bytes on whose user-key parts the comparator
    gives opposite signs in the two directions, so does
    [CompareInternalKey]. *)
Theorem CompareInternalKey_antisymmetric (c : Comparator) key1 key2 :
  (8 <= length key1)%nat -> (8 <= length key2)%nat ->
  Z.sgn (c (take (length key2 - 8) key2) (take (length key1 - 8) key1))
  = - Z.sgn (c (take (length key1 - 8) key1) (take (length key2 - 8) key2)) ->
  exists r12 r21,
    CompareInternalKey rocksEndian c key1 key2 = Some r12
    /\ CompareInternalKey rocksEndian c key2 key1 = Some r21
    /\ Z.sgn r21 = - Z.sgn r12.
Proof.
  intros L1 L2 Hanti.
  rewrite (CompareInternalKey_long c key1 key2 L1 L2),
          (CompareInternalKey_long c key2 key1 L2 L1). cbn zeta.
  set (c12 := c (take (length key1 - 8) key1) (take (length key2 - 8) key2)) in *.
  set (c21 := c (take (length key2 - 8) key2) (take (length key1 - 8) key1)) in *.
  set (n1 := Uint64 rocksEndian (drop (length key1 - 8) key1)).
  set (n2 := Uint64 rocksEndian (drop (length key2 - 8) key2)).
  destruct (Z.eqb_spec c12 0) as [H12|H12].
  - assert (H21 : c21 = 0).
    { apply Z.sgn_null_iff. rewrite Hanti, H12. reflexivity. }
    rewrite H21, H12. cbn [Z.eqb].
    destruct (Z.gtb_spec n1 n2), (Z.gtb_spec n2 n1),
             (Z.ltb_spec n1 n2), (Z.ltb_spec n2 n1);
      try lia; do 2 eexists; repeat split; reflexivity.
  - assert (H21 : c21 <> 0).
    { intros H0. rewrite H0 in Hanti. change (Z.sgn 0) with 0 in Hanti.
      apply H12, Z.sgn_null_iff. lia. }
    apply Z.eqb_neq in H21. rewrite H21.
    do 2 eexists. repeat split. exact Hanti.
Qed.

End CodecMore.

(** ** Block handles *)

Section BlockHandleMore.

Variable encodeVarint64 : list Byte.byte -> Z -> list Byte.byte * list Byte.byte.
Variable decodeVarint64 : list Byte.byte -> Z * Z.

Lemma copy_fits (dst src : list Byte.byte) :
  (length src <= length dst)%nat ->
  BlockHandle.copy dst src = src ++ drop (length src) dst.
Proof. intros Hl. unfold BlockHandle.copy. now rewrite take_ge by lia. Qed.

Lemma copy_length (dst src : list Byte.byte) :
  length (BlockHandle.copy dst src) = length dst.
Proof.
  unfold BlockHandle.copy. rewrite length_app, length_take, length_drop. lia.
Qed.

(** X7. A block handle survives [Encode] and [Decode] whenever the varint
    codec reads back the two numbers it wrote and they fit the twenty-byte
    buffer: [Encode] returns the varint of the offset followed by the varint
    of the size, and [Decode] recovers both fields from it and reports the
    number of bytes of the encoding. *)
Theorem blockHandle_roundtrip (h h0 : BlockHandle.blockHandle) :
  let result := replicate (2 * BlockHandle.MaxVarintLen64) Byte.x00 in
  let off := fst (encodeVarint64 result (BlockHandle.Offset h)) in
  let sz := fst (encodeVarint64 (replicate BlockHandle.MaxVarintLen64 Byte.x00)
                                (BlockHandle.Size h)) in
  length (snd (encodeVarint64 result (BlockHandle.Offset h))) = length result ->
  (length off + length sz <= 2 * BlockHandle.MaxVarintLen64)%nat ->
  decodeVarint64 (off ++ sz) = (BlockHandle.Offset h, Z.of_nat (length off)) ->
  decodeVarint64 sz = (BlockHandle.Size h, Z.of_nat (length sz)) ->
  BlockHandle.Encode encodeVarint64 h = Some (off ++ sz)
  /\ BlockHandle.Decode decodeVarint64 h0 (off ++ sz)
     = Some (h, Z.of_nat (length off + length sz)).
Proof.
  intros result off sz Hbuf Hfit Hdoff Hdsz. split.
  - unfold BlockHandle.Encode, BlockHandle.EncodeTo. fold result.
    subst off sz.
    destruct (encodeVarint64 result (BlockHandle.Offset h)) as [off buf1].
    destruct (encodeVarint64 (replicate BlockHandle.MaxVarintLen64 Byte.x00)
                             (BlockHandle.Size h)) as [sz b1].
    cbn [fst snd] in *.
    assert (Hres : length result = 20%nat) by reflexivity.
    change (2 * BlockHandle.MaxVarintLen64)%nat with 20%nat in Hfit.
    rewrite Hres in Hbuf.
    rewrite !take_0, !drop_0. cbn [app].
    change (0 + length off)%nat with (length off).
    rewrite (copy_fits buf1 off) by lia.
    assert (Hl1 : length (off ++ drop (length off) buf1) = 20%nat)
      by (rewrite length_app, length_drop; lia).
    rewrite Hl1.
    destruct (Nat.ltb_spec 20 (length off)) as [|_]; [lia|].
    rewrite take_app_length, drop_app_length.
    rewrite (copy_fits (drop (length off) buf1) sz) by (rewrite length_drop; lia).
    assert (Hl2 : length (off ++ sz ++ drop (length sz) (drop (length off) buf1)) = 20%nat)
      by (rewrite !length_app, !length_drop; lia).
    rewrite Hl2.
    destruct (Z.ltb_spec (Z.of_nat (length off) + Z.of_nat (length sz)) 0) as [|_]; [lia|].
    destruct (Z.ltb_spec (Z.of_nat 20) (Z.of_nat (length off) + Z.of_nat (length sz)))
      as [|_]; [lia|].
    cbn [orb]. f_equal.
    rewrite <- Nat2Z.inj_add, Nat2Z.id.
    rewrite app_assoc. rewrite take_app_length'; [reflexivity|].
    now rewrite length_app.
  - unfold BlockHandle.Decode. rewrite Hdoff.
    destruct (Z.ltb_spec (Z.of_nat (length off)) 0) as [|_]; [lia|].
    destruct (Z.ltb_spec (Z.of_nat (length (off ++ sz))) (Z.of_nat (length off)))
      as [Hlt|_]; [rewrite length_app in Hlt; lia|].
    cbn [orb]. rewrite Nat2Z.id, drop_app_length, Hdsz.
    destruct h as [o s]. cbn [BlockHandle.Offset BlockHandle.Size].
    rewrite Nat2Z.inj_add. reflexivity.
Qed.

End BlockHandleMore.

(** ** More on the registry *)

Section RegistryMore.

Import Manager MoreSpec.

Implicit Types (sm : SnapManager) (key : SnapKey) (entry : SnapEntry).

Lemma entries_of_lookup sm key entries :
  registry sm !! key = Some entries -> entries_of sm key = entries.
Proof. unfold entries_of. now intros ->. Qed.

Lemma entries_of_absent sm key :
  registry sm !! key = None -> entries_of sm key = [].
Proof. unfold entries_of. now intros ->. Qed.

Lemma entries_of_Register_other sm key entry key' :
  key' <> key -> entries_of (Register key entry sm) key' = entries_of sm key'.
Proof.
  intros Hne. unfold entries_of, Register.
  destruct (registry sm !! key) as [entries|]; [destruct (has_entry entry entries)|];
    cbn [registry notifyStats set_registry]; try reflexivity;
    now rewrite lookup_insert_ne by congruence.
Qed.


(** X8. [Register] adds exactly one pair: afterwards an entry is held by a
    key precisely if it was held before or is the pair just registered.  No
    other key and no other entry is affected. *)
Theorem Register_adds_exactly_the_pair sm key entry key' entry' :
  In entry' (entries_of (Register key entry sm) key')
  <-> In entry' (entries_of sm key') \/ (key' = key /\ entry' = entry).
Proof.
  destruct (decide (key' = key)) as [->|Hne].
  - rewrite <- !list_elem_of_In.
    destruct (registry sm !! key) as [entries|] eqn:E.
    + rewrite (entries_of_lookup _ _ _ E).
      destruct (has_entry entry entries) eqn:Hh.
      * apply has_entry_true in Hh.
        rewrite (Register_present _ _ _ _ E Hh), (entries_of_lookup _ _ _ E).
        split; [auto|]. intros [Hin|[_ ->]]; assumption.
      * apply has_entry_false in Hh.
        rewrite (entries_of_lookup (Register key entry sm) key (entries ++ [entry]))
          by (rewrite (registry_Register_new _ _ _ _ E Hh); apply lookup_insert_eq).
        rewrite elem_of_app, list_elem_of_singleton. tauto.
    + rewrite (entries_of_absent _ _ E).
      rewrite (entries_of_lookup (Register key entry sm) key [entry])
        by (rewrite (registry_Register_absent _ _ _ E); apply lookup_insert_eq).
      rewrite list_elem_of_singleton. split; [auto|].
      intros [Hin|[_ ->]]; [inversion Hin | reflexivity].
  - rewrite (entries_of_Register_other _ _ _ _ Hne). tauto.
Qed.



(** X10. [Register] and [Deregister] notify the router exactly when they
    change the registry: registering a pair already held, or deregistering one
    not held, leaves the whole manager as it was; otherwise the registry
    changes and one message goes to the router. *)
Theorem registry_ops_notify_iff_changed sm key entry :
  (In entry (entries_of sm key) -> Register key entry sm = sm)
  /\ (~ In entry (entries_of sm key) ->
      router (Register key entry sm) = S <$> router sm
      /\ registry (Register key entry sm) <> registry sm)
  /\ (~ In entry (entries_of sm key) -> Deregister key entry sm = sm)
  /\ (In entry (entries_of sm key) ->
      router (Deregister key entry sm) = S <$> router sm
      /\ registry (Deregister key entry sm) <> registry sm).
Proof.
  rewrite <- !list_elem_of_In. split; [|split; [|split]].
  - intros Hin. unfold entries_of in Hin.
    destruct (registry sm !! key) as [entries|] eqn:E; [|inversion Hin].
    exact (Register_present _ _ _ _ E Hin).
  - intros Hn. unfold entries_of in Hn. unfold Register.
    destruct (registry sm !! key) as [entries|] eqn:E; cbn in Hn.
    + apply has_entry_false in Hn. rewrite Hn. cbn. split; [reflexivity|].
      intros Heq. pose proof (lookup_insert_eq (registry sm) key (entries ++ [entry])) as Hl.
      rewrite Heq, E in Hl. injection Hl as Hl.
      apply (f_equal length) in Hl. rewrite length_app in Hl. cbn in Hl. lia.
    + cbn. split; [reflexivity|].
      intros Heq. pose proof (lookup_insert_eq (registry sm) key [entry]) as Hl.
      rewrite Heq, E in Hl. discriminate.
  - apply Deregister_stale.
  - intros Hin. unfold entries_of in Hin.
    destruct (registry sm !! key) as [entries|] eqn:E; [|inversion Hin]. cbn in Hin.
    destruct (index_of_is_Some _ _ Hin) as [i Hi].
    pose proof (index_of_Some _ _ _ Hi) as Hat.
    unfold Deregister. rewrite E, Hi. cbn zeta.
    assert (Hlen : (length (take i entries ++ drop (S i) entries) < length entries)%nat).
    { rewrite <- (take_drop_middle entries i entry Hat) at 3.
      rewrite !length_app. cbn. lia. }
    destruct (0 <? _)%nat; cbn; (split; [reflexivity|]); intros Heq.
    + pose proof (lookup_insert_eq (registry sm) key
                    (take i entries ++ drop (S i) entries)) as Hl.
      rewrite Heq, E in Hl. injection Hl as Hl. rewrite <- Hl in Hlen. lia.
    + pose proof (lookup_delete_eq (registry sm) key) as Hl.
      rewrite Heq, E in Hl. discriminate.
Qed.


End RegistryMore.

(** ** The statistics of the registry *)

Section StatsMore.

Import Manager MoreSpec.

Implicit Types (sm : SnapManager) (key : SnapKey) (entry : SnapEntry).

Lemma entry_flags_fold entries a b :
  fold_left
    (fun (flags : bool * bool) entry =>
       let '(isSending, isReceiving) := flags in
       if (entry =? SnapEntryGenerating) || (entry =? SnapEntrySending)
       then (true, isReceiving)
       else if (entry =? SnapEntryReceiving) || (entry =? SnapEntryApplying)
            then (isSending, true)
            else (isSending, isReceiving))
    entries (a, b)
  = (a || existsb sending_entry entries, b || existsb receiving_entry entries).
Proof.
  revert a b. induction entries as [|e t IH]; intros a b; cbn [fold_left existsb].
  - now rewrite !orb_false_r.
  - unfold sending_entry at 1, receiving_entry at 1.
    unfold SnapEntryGenerating, SnapEntrySending, SnapEntryReceiving, SnapEntryApplying.
    destruct (Z.eqb_spec e 1), (Z.eqb_spec e 2), (Z.eqb_spec e 3), (Z.eqb_spec e 4);
      try lia; cbn [orb]; rewrite IH; cbn [orb];
      rewrite ?orb_true_r, ?orb_false_r; reflexivity.
Qed.

Lemma entry_flags_spec entries :
  entry_flags entries
  = (existsb sending_entry entries, existsb receiving_entry entries).
Proof. unfold entry_flags. now rewrite entry_flags_fold. Qed.

Lemma Stats_fold sm :
  Stats sm =
  let acc := map_fold stats_step (0, 0) (registry sm) in
  {| SendingCount := fst acc; ReceivingCount := snd acc |}.
Proof.
  unfold Stats. fold stats_step.
  destruct (map_fold stats_step (0, 0) (registry sm)); reflexivity.
Qed.

Lemma stats_step_eq key entries acc :
  stats_step key entries acc
  = (fst acc + (if existsb sending_entry entries then 1 else 0),
     snd acc + (if existsb receiving_entry entries then 1 else 0)).
Proof.
  unfold stats_step. rewrite entry_flags_spec.
  destruct (existsb sending_entry entries), (existsb receiving_entry entries);
    f_equal; lia.
Qed.

Lemma stats_fold_insert (r : gmap SnapKey (list SnapEntry)) key entries :
  r !! key = None ->
  map_fold stats_step (0, 0) (<[key := entries]> r)
  = stats_step key entries (map_fold stats_step (0, 0) r).
Proof.
  intros Hfresh. apply map_fold_insert_L; [|exact Hfresh].
  intros j1 j2 z1 z2 y _ _ _. rewrite !stats_step_eq. cbn [fst snd]. f_equal; lia.
Qed.

(** Replacing the entry list of a key shifts each counter by the change of
    that key's flag. *)
Lemma stats_fold_replace (r : gmap SnapKey (list SnapEntry)) key old new :
  default [] (r !! key) = old ->
  let acc := map_fold stats_step (0, 0) r in
  let acc' := map_fold stats_step (0, 0) (<[key := new]> r) in
  fst acc' = fst acc + (if existsb sending_entry new then 1 else 0)
                     - (if existsb sending_entry old then 1 else 0)
  /\ snd acc' = snd acc + (if existsb receiving_entry new then 1 else 0)
                        - (if existsb receiving_entry old then 1 else 0).
Proof.
  intros Hold. cbn zeta.
  destruct (r !! key) as [es|] eqn:E; cbn in Hold; subst old.
  - rewrite <- (insert_delete_eq r key new).
    rewrite <- (insert_id r key es E) at 2 4.
    rewrite <- (insert_delete_eq r key es).
    rewrite !stats_fold_insert by apply lookup_delete_eq.
    rewrite !stats_step_eq. cbn [fst snd]. lia.
  - rewrite stats_fold_insert by exact E.
    rewrite stats_step_eq. cbn [fst snd existsb]. lia.
Qed.

Lemma existsb_snoc {B} (f : B -> bool) l x :
  existsb f (l ++ [x]) = existsb f l || f x.
Proof. rewrite existsb_app. cbn. now rewrite orb_false_r. Qed.

(** X12. A key counts once on each side however many entries it holds:
    [Register key entry] raises [SendingCount] by one exactly when [entry] is
    Generating or Sending and the key held neither before, and raises
    [ReceivingCount] by one exactly when [entry] is Receiving or Applying and
    the key held neither before; an entry outside the four constants moves no
    counter. *)
Theorem Stats_Register sm key entry :
  SendingCount (Stats (Register key entry sm))
  = SendingCount (Stats sm)
    + (if sending_entry entry && negb (existsb sending_entry (entries_of sm key))
       then 1 else 0)
  /\ ReceivingCount (Stats (Register key entry sm))
     = ReceivingCount (Stats sm)
       + (if receiving_entry entry
             && negb (existsb receiving_entry (entries_of sm key))
          then 1 else 0).
Proof.
  rewrite !Stats_fold. cbn zeta. cbn [SendingCount ReceivingCount].
  destruct (has_entry entry (entries_of sm key)) eqn:Hh.
  - apply has_entry_true in Hh.
    assert (Hreg : Register key entry sm = sm).
    { unfold entries_of in Hh.
      destruct (registry sm !! key) as [entries|] eqn:E; [|inversion Hh].
      exact (Register_present _ _ _ _ E Hh). }
    rewrite Hreg.
    assert (Hs : sending_entry entry = true ->
                 existsb sending_entry (entries_of sm key) = true).
    { intros He. apply existsb_exists. exists entry.
      split; [now apply list_elem_of_In | exact He]. }
    assert (Hr : receiving_entry entry = true ->
                 existsb receiving_entry (entries_of sm key) = true).
    { intros He. apply existsb_exists. exists entry.
      split; [now apply list_elem_of_In | exact He]. }
    destruct (sending_entry entry), (receiving_entry entry);
      rewrite ?Hs, ?Hr by reflexivity; cbn; lia.
  - apply has_entry_false in Hh.
    assert (Hreg : registry (Register key entry sm)
                   = <[key := entries_of sm key ++ [entry]]> (registry sm)).
    { unfold entries_of in *.
      destruct (registry sm !! key) as [entries|] eqn:E; cbn in *.
      - exact (registry_Register_new _ _ _ _ E Hh).
      - exact (registry_Register_absent _ _ _ E). }
    rewrite Hreg.
    destruct (stats_fold_replace (registry sm) key (entries_of sm key)
                (entries_of sm key ++ [entry]) eq_refl) as [H1 H2].
    cbn zeta in H1, H2. rewrite H1, H2, !existsb_snoc.
    destruct (existsb sending_entry (entries_of sm key)),
             (existsb receiving_entry (entries_of sm key)),
             (sending_entry entry), (receiving_entry entry); cbn; lia.
Qed.

(** X13. Neither counter of [Stats] is negative or exceeds the number of
    registered keys, and both are zero for a manager fresh from the
    constructor. *)
Theorem Stats_bounds sm :
  0 <= SendingCount (Stats sm) <= Z.of_nat (size (registry sm))
  /\ 0 <= ReceivingCount (Stats sm) <= Z.of_nat (size (registry sm))
  /\ forall smb path rt,
       Stats (Build smb path rt) = {| ReceivingCount := 0; SendingCount := 0 |}.
Proof.
  rewrite Stats_fold. cbn zeta. cbn [SendingCount ReceivingCount].
  assert (Hb : 0 <= fst (map_fold stats_step (0, 0) (registry sm))
                 <= Z.of_nat (size (registry sm))
               /\ 0 <= snd (map_fold stats_step (0, 0) (registry sm))
                    <= Z.of_nat (size (registry sm))).
  { apply (map_fold_weak_ind
             (fun acc (m : gmap SnapKey (list SnapEntry)) =>
                0 <= fst acc <= Z.of_nat (size m)
                /\ 0 <= snd acc <= Z.of_nat (size m))).
    - rewrite map_size_empty. cbn. lia.
    - intros i x m r Hfresh IH. rewrite stats_step_eq, map_size_insert_None by exact Hfresh.
      cbn [fst snd].
      destruct (existsb sending_entry x), (existsb receiving_entry x); lia. }
  split; [apply Hb|]. split; [apply Hb|].
  intros smb path rt. rewrite Stats_fold. cbn [registry Build].
  now rewrite map_fold_empty.
Qed.

End StatsMore.

(** ** More on the manager *)

Section ManagerMore.

Import Manager MoreSpec.

Context `{SnapshotIO}.
Variables metaFileSuffix snapGenPrefix : string.

Implicit Types (sm : SnapManager) (key : SnapKey) (w : World).

Lemma set_snapSize_same sm : set_snapSize sm (snapSize sm) = sm.
Proof. destruct sm; reflexivity. Qed.

Lemma set_snapSize_twice sm a b :
  set_snapSize (set_snapSize sm a) b = set_snapSize sm b.
Proof. reflexivity. Qed.




Lemma DeleteSnapshot_frame key (snapshot : Snapshot) b w :
  exists n, fst (snd (DeleteSnapshot key snapshot b w)) = set_snapSize (fst w) n.
Proof.
  destruct w as [sm d]. unfold DeleteSnapshot.
  destruct (if b then _ else _).
  - exists (snapSize sm). cbn. symmetry. apply set_snapSize_same.
  - destruct (Snapshot_Delete snapshot d (snapSize sm)) as [d' n']. now exists n'.
Qed.

Lemma evict_loop_frame snaps w :
  exists n, fst (snd (evict_loop snaps w)) = set_snapSize (fst w) n.
Proof.
  revert w. induction snaps as [|s rest IH]; intros w; rewrite evict_loop_eq.
  - destruct (_ >? _); exists (snapSize (fst w)); symmetry; apply set_snapSize_same.
  - destruct (_ >? _).
    + destruct (IH (snd (DeleteSnapshot (swm_key s) (swm_snap s) false w))) as [n Hn].
      destruct (DeleteSnapshot_frame (swm_key s) (swm_snap s) false w) as [m Hm].
      exists n. rewrite Hn, Hm. apply set_snapSize_twice.
    + exists (snapSize (fst w)). symmetry. apply set_snapSize_same.
Qed.

Lemma deleteOldIdleSnaps_frame w :
  exists n, fst (snd (deleteOldIdleSnaps metaFileSuffix snapGenPrefix w))
            = set_snapSize (fst w) n.
Proof.
  unfold deleteOldIdleSnaps.
  destruct (ListIdleSnap _ _ w) as [idle|e];
    [|exists (snapSize (fst w)); symmetry; apply set_snapSize_same].
  destruct (collect_snaps w idle []) as [snaps|e];
    [|exists (snapSize (fst w)); symmetry; apply set_snapSize_same].
  apply evict_loop_frame.
Qed.

(** X16. Quota eviction and [GetSnapshotForBuilding] never touch the
    registry, the base path, the router or the quota: of the manager only the
    size counter can differ afterwards, also when they fail. *)
Theorem GetSnapshotForBuilding_changes_only_counter key w :
  (exists n, fst (snd (deleteOldIdleSnaps metaFileSuffix snapGenPrefix w))
             = set_snapSize (fst w) n)
  /\ (exists n, fst (snd (GetSnapshotForBuilding metaFileSuffix snapGenPrefix key w))
                = set_snapSize (fst w) n)
  /\ registry (fst (snd (GetSnapshotForBuilding metaFileSuffix snapGenPrefix key w)))
     = registry (fst w).
Proof.
  assert (Hb : exists n,
             fst (snd (GetSnapshotForBuilding metaFileSuffix snapGenPrefix key w))
             = set_snapSize (fst w) n).
  { unfold GetSnapshotForBuilding. destruct (_ >? _).
    - destruct (deleteOldIdleSnaps_frame w) as [n Hn].
      destruct (deleteOldIdleSnaps metaFileSuffix snapGenPrefix w) as [[e|] w'];
        exists n; exact Hn.
    - exists (snapSize (fst w)). symmetry. apply set_snapSize_same. }
  split; [apply deleteOldIdleSnaps_frame|]. split; [exact Hb|].
  destruct Hb as [n ->]. reflexivity.
Qed.

End ManagerMore.

(** ** More on listing and eviction *)

Section ListingMore.

Import Manager MoreSpec.

Context `{SnapshotIO}.
Variables metaFileSuffix snapGenPrefix : string.

Implicit Types (sm : SnapManager) (key : SnapKey) (w : World).

Lemma parsed_keys_cons parse fi (rest : list FileInfo) :
  parsed_keys parse (fi :: rest)
  = match parse fi with
    | Ok (Some k) => k :: parsed_keys parse rest
    | _ => parsed_keys parse rest
    end.
Proof.
  unfold parsed_keys. cbn. destruct (parse fi) as [[k|]|e]; reflexivity.
Qed.

Lemma list_idle_loop_complete sm fis acc results :
  list_idle_loop metaFileSuffix snapGenPrefix sm fis acc = Ok results ->
  results = acc ++ parsed_keys (parse_idle metaFileSuffix snapGenPrefix sm) fis
  /\ forall fi, In fi fis ->
       exists r, parse_idle metaFileSuffix snapGenPrefix sm fi = Ok r.
Proof.
  revert acc. induction fis as [|fi rest IH]; intros acc; cbn [list_idle_loop].
  - intros [= <-]. split; [cbn; now rewrite app_nil_r | intros ? []].
  - rewrite parsed_keys_cons.
    destruct (parse_idle metaFileSuffix snapGenPrefix sm fi) as [[k|]|e] eqn:Hp;
      [| |discriminate]; intros Hl; destruct (IH _ Hl) as [-> Hall].
    + split; [now rewrite <- app_assoc|].
      intros fi' [<-|Hin]; [eauto | now apply Hall].
    + split; [reflexivity|].
      intros fi' [<-|Hin]; [eauto | now apply Hall].
Qed.

Lemma list_idle_loop_fails sm fis acc fi e :
  In fi fis -> parse_idle metaFileSuffix snapGenPrefix sm fi = Err e ->
  exists e', list_idle_loop metaFileSuffix snapGenPrefix sm fis acc = Err e'.
Proof.
  revert acc. induction fis as [|fi0 rest IH]; intros acc Hin Hp; [destruct Hin|].
  cbn [list_idle_loop]. destruct Hin as [->|Hin].
  - rewrite Hp. eauto.
  - destruct (parse_idle metaFileSuffix snapGenPrefix sm fi0) as [[k|]|e0]; eauto.
Qed.

Lemma parse_idle_malformed sm fi :
  IsDir fi = false ->
  HasSuffix (Name fi) metaFileSuffix = true ->
  length (Split (slice_to (Name fi)
                   (String.length (Name fi) - String.length metaFileSuffix))
                "_"%char) <> 4%nat ->
  parse_idle metaFileSuffix snapGenPrefix sm fi
  = Err (Errorf ("failed to parse file "
                   ++ slice_to (Name fi)
                        (String.length (Name fi) - String.length metaFileSuffix))).
Proof.
  intros Hd Hs Hlen. unfold parse_idle. rewrite Hd, Hs. cbn [negb].
  destruct (Split _ _) as [|a [|b [|c [|d0 [|e0 l]]]]]; cbn in Hlen;
    try reflexivity; congruence.
Qed.

(** X17. [ListIdleSnap] drops and invents nothing: when it succeeds, every
    file of the directory was accepted by the parser, and the result holds
    exactly the keys of the accepted, unregistered meta files, one per file
    (a rearrangement of them in directory order). *)
Theorem ListIdleSnap_lists_every_idle_file w results :
  ListIdleSnap metaFileSuffix snapGenPrefix w = Ok results ->
  exists fis,
    ReadDir (snd w) (base (fst w)) = Ok fis
    /\ Permutation results
         (parsed_keys (parse_idle metaFileSuffix snapGenPrefix (fst w)) fis)
    /\ forall fi, In fi fis ->
         exists r, parse_idle metaFileSuffix snapGenPrefix (fst w) fi = Ok r.
Proof.
  intros Hl.
  destruct (ListIdleSnap_inv _ _ w results Hl) as (fis & unsorted & Hrd & Hloop & ->).
  destruct (list_idle_loop_complete _ _ _ _ Hloop) as [-> Hall].
  exists fis. split; [exact Hrd|]. split; [|exact Hall].
  cbn [app]. apply sort_Slice_perm.
Qed.

(** X18. One meta file whose name does not split into exactly four
    underscore-separated segments makes the whole listing fail, and with it
    any [GetSnapshotForBuilding] that finds the quota exceeded: that call
    returns the listing's error, hands out no snapshot and deletes nothing. *)
Theorem malformed_meta_name_fails_listing w fis fi key :
  ReadDir (snd w) (base (fst w)) = Ok fis ->
  In fi fis ->
  IsDir fi = false ->
  HasSuffix (Name fi) metaFileSuffix = true ->
  length (Split (slice_to (Name fi)
                   (String.length (Name fi) - String.length metaFileSuffix))
                "_"%char) <> 4%nat ->
  exists e,
    ListIdleSnap metaFileSuffix snapGenPrefix w = Err e
    /\ (over_quota w ->
        GetSnapshotForBuilding metaFileSuffix snapGenPrefix key w = (Err e, w)).
Proof.
  intros Hrd Hin Hd Hs Hlen.
  pose proof (parse_idle_malformed (fst w) fi Hd Hs Hlen) as Hp.
  destruct (list_idle_loop_fails (fst w) fis [] fi _ Hin Hp) as [e He].
  assert (Hl : ListIdleSnap metaFileSuffix snapGenPrefix w = Err e).
  { destruct w as [sm d]. unfold ListIdleSnap. cbn [fst snd] in *.
    now rewrite Hrd, He. }
  exists e. split; [exact Hl|].
  intros Hover. unfold GetSnapshotForBuilding, deleteOldIdleSnaps.
  apply over_quota_gtb in Hover. now rewrite Hover, Hl.
Qed.

Lemma collect_snaps_none w idleSnaps acc :
  (forall k, In k idleSnaps ->
     IsSending k = false
     \/ exists e, GetSnapshotForSending w (SnapKeyOf k) = Err e) ->
  collect_snaps w idleSnaps acc = Ok acc.
Proof.
  induction idleSnaps as [|x rest IH]; intros Hall; cbn [collect_snaps]; [reflexivity|].
  assert (Hrest : collect_snaps w rest acc = Ok acc)
    by (apply IH; intros k Hk; apply Hall; now right).
  destruct (Hall x (or_introl eq_refl)) as [Hs|[e He]].
  - now rewrite Hs.
  - rewrite He. now destruct (negb (IsSending x)).
Qed.

(** X19. When the quota is exceeded and no idle snapshot is an openable
    sending-side one (they are all receiving-side, or their handles fail to
    open), eviction deletes nothing and fails with "too many snapshots", and
    so does [GetSnapshotForBuilding]. *)
Theorem eviction_without_candidates_fails w idleSnaps key :
  over_quota w ->
  ListIdleSnap metaFileSuffix snapGenPrefix w = Ok idleSnaps ->
  (forall k, In k idleSnaps ->
     IsSending k = false
     \/ exists e, GetSnapshotForSending w (SnapKeyOf k) = Err e) ->
  deleteOldIdleSnaps metaFileSuffix snapGenPrefix w
  = (Some (Errorf "too many snapshots"), w)
  /\ GetSnapshotForBuilding metaFileSuffix snapGenPrefix key w
     = (Err (Errorf "too many snapshots"), w).
Proof.
  intros Hover Hl Hnone.
  assert (Hrun : deleteOldIdleSnaps metaFileSuffix snapGenPrefix w
                 = (Some (Errorf "too many snapshots"), w)).
  { unfold deleteOldIdleSnaps.
    rewrite Hl, (collect_snaps_none w idleSnaps [] Hnone).
    change (sort_Slice modTime_Before []) with (@nil snapWithModTime).
    rewrite evict_loop_eq. apply over_quota_gtb in Hover. now rewrite Hover. }
  split; [exact Hrun|].
  unfold GetSnapshotForBuilding. apply over_quota_gtb in Hover.
  now rewrite Hover, Hrun.
Qed.

End ListingMore.

(** ** Start-up scan and entry names *)

Section InitMore.

Import Manager MoreSpec.

Context `{DirIO}.
Variables tmpFileSuffix sstFileSuffix : string.

Implicit Types (w : World).

Lemma wrap_int64_small z : - 2 ^ 63 <= z < 2 ^ 63 -> wrap_int64 z = z.
Proof. intros Hz. unfold wrap_int64, two64. rewrite Z.mod_small; lia. Qed.

Lemma wrap_int64_range z : - 2 ^ 63 <= wrap_int64 z < 2 ^ 63.
Proof.
  unfold wrap_int64, two64.
  pose proof (Z.mod_pos_bound (z + 2 ^ 63) (2 ^ 64) ltac:(lia)). lia.
Qed.

Lemma wrap_int64_add a b : wrap_int64 (wrap_int64 a + b) = wrap_int64 (a + b).
Proof.
  unfold wrap_int64, two64.
  replace ((a + 2 ^ 63) mod 2 ^ 64 - 2 ^ 63 + b + 2 ^ 63)
    with ((a + 2 ^ 63) mod 2 ^ 64 + b) by lia.
  rewrite Z.add_mod_idemp_l by lia.
  do 2 f_equal. lia.
Qed.

Lemma init_loop_counts fis w d' :
  - 2 ^ 63 <= snapSize (fst w) < 2 ^ 63 ->
  remove_all (base (fst w)) (List.filter (is_tmp_file tmpFileSuffix) fis) (snd w)
  = Ok d' ->
  init_loop tmpFileSuffix sstFileSuffix fis w
  = (None,
     (set_snapSize (fst w)
        (wrap_int64
           (snapSize (fst w)
            + total_size
                (List.filter (is_counted_file tmpFileSuffix sstFileSuffix) fis))),
      d')).
Proof.
  revert w. induction fis as [|fi rest IH]; intros [sm d] Hrange Hrm;
    cbn [fst snd] in *.
  - cbn in Hrm. injection Hrm as <-. cbn.
    rewrite Z.add_0_r, wrap_int64_small by exact Hrange.
    now rewrite set_snapSize_same.
  - cbn [init_loop List.filter] in *. unfold is_tmp_file, is_counted_file in *.
    destruct (IsDir fi); cbn [negb andb] in *.
    + exact (IH (sm, d) Hrange Hrm).
    + destruct (HasSuffix (Name fi) tmpFileSuffix); cbn [negb andb fst snd] in *.
      * cbn [remove_all] in Hrm.
        destruct (Remove d (filepath_Join (base sm) (Name fi))) as [d1|e];
          [|discriminate].
        exact (IH (sm, d1) Hrange Hrm).
      * destruct (HasSuffix (Name fi) sstFileSuffix).
        -- rewrite (IH (set_snapSize sm (AddInt64 (snapSize sm) (Size fi)), d));
             [|apply wrap_int64_range|exact Hrm].
           cbn [fst snd snapSize set_snapSize total_size fold_right base].
           unfold AddInt64. rewrite wrap_int64_add, set_snapSize_twice.
           unfold total_size. rewrite Z.add_assoc. reflexivity.
        -- exact (IH (sm, d) Hrange Hrm).
Qed.

(** X20. On an existing base directory whose temporary files can all be
    removed, [init] succeeds; it removes exactly the non-directory entries
    with the temporary suffix, in directory order, and adds to the size
    counter the sizes of the non-directory entries that carry the data suffix
    and not the temporary one (with 64-bit wrap-around); all other entries are
    neither removed nor counted. *)
Theorem init_cleans_and_counts w fi0 fis d' :
  Stat (snd w) (base (fst w)) = StatOk fi0 ->
  IsDir fi0 = true ->
  ReadDir (snd w) (base (fst w)) = Ok fis ->
  - 2 ^ 63 <= snapSize (fst w) < 2 ^ 63 ->
  remove_all (base (fst w)) (List.filter (is_tmp_file tmpFileSuffix) fis) (snd w)
  = Ok d' ->
  init tmpFileSuffix sstFileSuffix w
  = (None,
     (set_snapSize (fst w)
        (wrap_int64
           (snapSize (fst w)
            + total_size
                (List.filter (is_counted_file tmpFileSuffix sstFileSuffix) fis))),
      d')).
Proof.
  intros Hst Hdir Hrd Hrange Hrm. unfold init.
  rewrite Hst, Hdir, Hrd. cbn [negb].
  now apply init_loop_counts.
Qed.

(** X21. [String] gives the four entries four different names and calls
    every other value "unknown". *)
Theorem SnapEntry_String_names (e1 e2 : SnapEntry) :
  (SnapEntry_String e1 = "unknown"%string
   <-> ~ In e1 [SnapEntryGenerating; SnapEntrySending;
                SnapEntryReceiving; SnapEntryApplying])
  /\ (In e1 [SnapEntryGenerating; SnapEntrySending;
             SnapEntryReceiving; SnapEntryApplying] ->
      SnapEntry_String e1 = SnapEntry_String e2 -> e1 = e2).
Proof.
  unfold SnapEntry_String, SnapEntryGenerating, SnapEntrySending,
    SnapEntryReceiving, SnapEntryApplying. cbn [In].
  split.
  - destruct (Z.eqb_spec e1 1), (Z.eqb_spec e1 2), (Z.eqb_spec e1 3), (Z.eqb_spec e1 4);
      try lia;
      (split; [intros Hs Hin; try discriminate Hs; lia
              | intros Hn; try reflexivity; exfalso; apply Hn; lia]).
  - intros Hin Heq.
    destruct (Z.eqb_spec e1 1), (Z.eqb_spec e1 2), (Z.eqb_spec e1 3), (Z.eqb_spec e1 4),
             (Z.eqb_spec e2 1), (Z.eqb_spec e2 2), (Z.eqb_spec e2 3), (Z.eqb_spec e2 4);
      try lia; discriminate Heq.
Qed.

End InitMore.

(** ** Well-formed keys *)

Section KeysMore.

Import Manager MoreSpec.

Context `{SnapshotIO}.
Variables metaFileSuffix snapGenPrefix : string.
Variable rocksEndian : ByteOrder.

Lemma digit_of_range c d : digit_of c = Some d -> 0 <= d <= 9.
Proof.
  unfold digit_of.
  destruct (Z.leb_spec 48 (Z.of_nat (nat_of_ascii c))),
           (Z.leb_spec (Z.of_nat (nat_of_ascii c)) 57); cbn; try discriminate.
  intros [= <-]. lia.
Qed.

Lemma parse_digits_range s0 s n m :
  0 <= n <= MaxUint64 -> parse_digits s0 s n = Ok m -> 0 <= m <= MaxUint64.
Proof.
  revert n. induction s as [|c t IH]; intros n Hn; cbn [parse_digits].
  - now intros [= <-].
  - destruct (digit_of c) as [d|] eqn:Hd; [|discriminate].
    apply digit_of_range in Hd.
    destruct (n >=? cutoff); [discriminate|].
    destruct (Z.gtb_spec (n * 10 + d) MaxUint64); [discriminate|].
    apply IH. lia.
Qed.

Lemma ParseUint_range s m : ParseUint s = Ok m -> 0 <= m <= MaxUint64.
Proof.
  unfold ParseUint. destruct s; [discriminate|].
  apply parse_digits_range. unfold MaxUint64, two64. lia.
Qed.

Lemma parse_idle_accepts sm fi k :
  parse_idle metaFileSuffix snapGenPrefix sm fi = Ok (Some k) ->
  IsDir fi = false
  /\ HasSuffix (Name fi) metaFileSuffix = true
  /\ IsSending k
     = HasPrefix (slice_to (Name fi)
                    (String.length (Name fi) - String.length metaFileSuffix))
                 snapGenPrefix
  /\ 0 <= RegionID (SnapKeyOf k) <= MaxUint64
  /\ 0 <= Term (SnapKeyOf k) <= MaxUint64
  /\ 0 <= Index (SnapKeyOf k) <= MaxUint64.
Proof.
  unfold parse_idle. intros Hp.
  destruct (IsDir fi); [discriminate|].
  destruct (HasSuffix (Name fi) metaFileSuffix); [|discriminate]. cbn [negb] in Hp.
  destruct (Split _ _) as [|a [|b [|c [|d0 [|e0 l]]]]]; try discriminate.
  destruct (ParseUint b) as [r|] eqn:Hr; [|discriminate].
  destruct (ParseUint c) as [t|] eqn:Ht; [|discriminate].
  destruct (ParseUint d0) as [i|] eqn:Hi; [|discriminate].
  destruct (registry sm !! _); [discriminate|].
  injection Hp as <-. cbn.
  apply ParseUint_range in Hr, Ht, Hi. repeat split; (reflexivity || lia).
Qed.

(** X22. Every entry [ListIdleSnap] returns stems from a non-directory entry
    of the base directory whose name ends with the meta suffix; its three
    numbers lie in the range of uint64, and it is flagged as sending exactly
    when the name, stripped of the suffix, starts with the generating
    prefix. *)
Theorem ListIdleSnap_entries_well_formed (w : World) results k :
  ListIdleSnap metaFileSuffix snapGenPrefix w = Ok results ->
  In k results ->
  (0 <= RegionID (SnapKeyOf k) <= MaxUint64
   /\ 0 <= Term (SnapKeyOf k) <= MaxUint64
   /\ 0 <= Index (SnapKeyOf k) <= MaxUint64)
  /\ exists fis fi,
       ReadDir (snd w) (base (fst w)) = Ok fis
       /\ In fi fis
       /\ IsDir fi = false
       /\ HasSuffix (Name fi) metaFileSuffix = true
       /\ IsSending k
          = HasPrefix (slice_to (Name fi)
                         (String.length (Name fi) - String.length metaFileSuffix))
                      snapGenPrefix.
Proof.
  intros Hl Hk.
  destruct (ListIdleSnap_inv _ _ w results Hl) as (fis & unsorted & Hrd & Hloop & ->).
  apply (Permutation_in _ (sort_Slice_perm idle_less unsorted)) in Hk.
  destruct (list_idle_loop_complete _ _ _ _ _ _ Hloop) as [-> _]. cbn [app] in Hk.
  unfold parsed_keys in Hk. apply list_elem_of_In, list_elem_of_omap in Hk.
  destruct Hk as (fi & Hfi & Hparse). apply list_elem_of_In in Hfi.
  destruct (parse_idle metaFileSuffix snapGenPrefix (fst w) fi) as [[k'|]|e] eqn:Hp;
    try discriminate.
  injection Hparse as ->.
  destruct (parse_idle_accepts _ _ _ Hp) as (Hd & Hs & Hflag & Hr & Ht & Hi).
  split; [auto|]. exists fis, fi. auto.
Qed.

(** X23. Distinct internal keys have distinct encodings: for sequence numbers
    below 2^56 and value types that fit a byte, [Encode] is injective. *)
Theorem Encode_injective (ik1 ik2 : InternalKey) :
  0 <= SequenceNumber ik1 < 2 ^ 56 -> is_uint8 (ValueTypeOf ik1) ->
  0 <= SequenceNumber ik2 < 2 ^ 56 -> is_uint8 (ValueTypeOf ik2) ->
  Encode rocksEndian ik1 = Encode rocksEndian ik2 -> ik1 = ik2.
Proof.
  intros Hs1 Hv1 Hs2 Hv2 Heq.
  pose proof (Decode_Encode_truncated rocksEndian ik1 ik1) as D1.
  pose proof (Decode_Encode_truncated rocksEndian ik1 ik2) as D2.
  unfold two64 in D1, D2.
  rewrite Heq in D1. rewrite D2 in D1 by (assumption || lia).
  specialize (D1 ltac:(lia) Hv1). injection D1 as Hu Hs Hv.
  rewrite !Z.mod_small in Hs by lia.
  destruct ik1, ik2. cbn in *. congruence.
Qed.

End KeysMore.

(** ** Further concrete runs *)

Section Concrete2.

Import MemDisk Scenario Manager MoreSpec Scenario2.
Local Open Scope string_scope.

Ltac crunch :=
  solve [ reflexivity | lia | cbn; lia | vm_compute; reflexivity
        | vm_compute; lia | vm_compute; discriminate ].

Lemma Decode_bounds_witness :
  Decode BigEndian (mkInternalKey [] 0 0)
    (Encode BigEndian (mkInternalKey user_a 7 TypeValue))
  = Some (mkInternalKey user_a 7 TypeValue)
  /\ 0 <= 7 < 2 ^ 56 /\ is_uint8 TypeValue.
Proof.
  assert (Hd : Decode BigEndian (mkInternalKey [] 0 0)
                 (Encode BigEndian (mkInternalKey user_a 7 TypeValue))
               = Some (mkInternalKey user_a 7 TypeValue)) by reflexivity.
  split; [exact Hd|].
  destruct (proj2 (Decode_bounds BigEndian _ _) _ Hd) as (_ & Hs & Hv).
  split; assumption.
Defined.

Lemma Encode_Decode_roundtrip_witness :
  Decode LittleEndian (mkInternalKey [] 0 0)
    [Byte.x6b; Byte.x01; Byte.x09; Byte.x00; Byte.x00; Byte.x00; Byte.x00;
     Byte.x00; Byte.x00]
  = Some (mkInternalKey [Byte.x6b] 9 TypeValue)
  /\ Encode LittleEndian (mkInternalKey [Byte.x6b] 9 TypeValue)
     = [Byte.x6b; Byte.x01; Byte.x09; Byte.x00; Byte.x00; Byte.x00; Byte.x00;
        Byte.x00; Byte.x00].
Proof.
  assert (Hd : Decode LittleEndian (mkInternalKey [] 0 0)
                 [Byte.x6b; Byte.x01; Byte.x09; Byte.x00; Byte.x00; Byte.x00;
                  Byte.x00; Byte.x00; Byte.x00]
               = Some (mkInternalKey [Byte.x6b] 9 TypeValue)) by reflexivity.
  split; [exact Hd|].
  exact (Encode_Decode_roundtrip LittleEndian _ _ _ Hd).
Defined.

Lemma Encode_truncates_sequence_number_witness :
  (0 <= 2 ^ 56 + 5 < 2 ^ 64 /\ is_uint8 TypeValue)
  /\ Decode LittleEndian (mkInternalKey [] 0 0)
       (Encode LittleEndian (mkInternalKey user_a (2 ^ 56 + 5) TypeValue))
     = Some (mkInternalKey user_a ((2 ^ 56 + 5) mod 2 ^ 56) TypeValue).
Proof.
  assert (Hs : 0 <= 2 ^ 56 + 5 < 2 ^ 64) by lia.
  assert (Hv : is_uint8 TypeValue) by (unfold is_uint8, TypeValue; lia).
  split; [split; assumption|].
  exact (proj1 (Encode_truncates_sequence_number LittleEndian (mkInternalKey [] 0 0)
                  (mkInternalKey user_a (2 ^ 56 + 5) TypeValue) Hs Hv)).
Defined.

Lemma CompareInternalKey_larger_type_first_witness :
  bytes_Compare user_a user_a = 0
  /\ CompareInternalKey LittleEndian bytes_Compare
       (Encode LittleEndian (mkInternalKey user_a 7 TypeMerge))
       (Encode LittleEndian (mkInternalKey user_a 7 TypeDeletion)) = Some (-1)
  /\ CompareInternalKey LittleEndian bytes_Compare
       (Encode LittleEndian (mkInternalKey user_a 7 TypeDeletion))
       (Encode LittleEndian (mkInternalKey user_a 7 TypeMerge)) = Some 1.
Proof.
  split; [reflexivity|]. split.
  - apply (CompareInternalKey_larger_type_first LittleEndian bytes_Compare
             (mkInternalKey [] 0 0) (mkInternalKey [] 0 0) _ _
             (mkInternalKey user_a 7 TypeMerge) (mkInternalKey user_a 7 TypeDeletion));
      [reflexivity | reflexivity | reflexivity | reflexivity | crunch].
  - apply (CompareInternalKey_larger_type_first LittleEndian bytes_Compare
             (mkInternalKey [] 0 0) (mkInternalKey [] 0 0) _ _
             (mkInternalKey user_a 7 TypeDeletion) (mkInternalKey user_a 7 TypeMerge));
      [reflexivity | reflexivity | reflexivity | reflexivity | crunch].
Defined.

Lemma CompareInternalKey_zero_iff_witness :
  CompareInternalKey LittleEndian bytes_Compare
    (Encode LittleEndian (mkInternalKey user_a 7 TypeValue))
    (Encode LittleEndian (mkInternalKey user_a 7 TypeValue)) = Some 0.
Proof.
  apply (CompareInternalKey_zero_iff LittleEndian bytes_Compare);
    [crunch | crunch | split; reflexivity].
Defined.

Lemma CompareInternalKey_antisymmetric_witness :
  exists r12 r21,
    CompareInternalKey LittleEndian bytes_Compare
      (Encode LittleEndian (mkInternalKey user_a 7 TypeValue))
      (Encode LittleEndian (mkInternalKey [Byte.x62] 5 TypeValue)) = Some r12
    /\ CompareInternalKey LittleEndian bytes_Compare
         (Encode LittleEndian (mkInternalKey [Byte.x62] 5 TypeValue))
         (Encode LittleEndian (mkInternalKey user_a 7 TypeValue)) = Some r21
    /\ Z.sgn r21 = - Z.sgn r12.
Proof.
  apply (CompareInternalKey_antisymmetric LittleEndian bytes_Compare);
    [crunch | crunch | reflexivity].
Defined.

Lemma blockHandle_roundtrip_witness :
  BlockHandle.Encode encode_varint (BlockHandle.mkBlockHandle 300 5)
  = Some [Byte.xac; Byte.x02; Byte.x05]
  /\ BlockHandle.Decode decode_varint (BlockHandle.mkBlockHandle 0 0)
       [Byte.xac; Byte.x02; Byte.x05]
     = Some (BlockHandle.mkBlockHandle 300 5, 3).
Proof.
  apply (blockHandle_roundtrip encode_varint decode_varint
           (BlockHandle.mkBlockHandle 300 5) (BlockHandle.mkBlockHandle 0 0));
    [reflexivity | crunch | reflexivity | reflexivity].
Defined.


Lemma registry_ops_notify_iff_changed_witness :
  In SnapEntryGenerating
     (entries_of (Register key1 SnapEntryGenerating (Build (mkSnapManagerBuilder 0) "snap" (Some 0%nat))) key1)
  /\ Register key1 SnapEntryGenerating
       (Register key1 SnapEntryGenerating (Build (mkSnapManagerBuilder 0) "snap" (Some 0%nat)))
     = Register key1 SnapEntryGenerating (Build (mkSnapManagerBuilder 0) "snap" (Some 0%nat))
  /\ router (Deregister key1 SnapEntryGenerating
               (Register key1 SnapEntryGenerating
                  (Build (mkSnapManagerBuilder 0) "snap" (Some 0%nat))))
     = Some 2%nat.
Proof.
  assert (Hin : In SnapEntryGenerating
                  (entries_of (Register key1 SnapEntryGenerating
                                 (Build (mkSnapManagerBuilder 0) "snap" (Some 0%nat))) key1))
    by (vm_compute; left; reflexivity).
  split; [exact Hin|]. split.
  - exact (proj1 (registry_ops_notify_iff_changed _ key1 SnapEntryGenerating) Hin).
  - exact (proj1 (proj2 (proj2 (proj2
             (registry_ops_notify_iff_changed _ key1 SnapEntryGenerating))) Hin)).
Defined.




Lemma ListIdleSnap_lists_every_idle_file_witness :
  ListIdleSnap ".meta" "gen" mixed = Ok mixed_idle
  /\ exists fis,
       ReadDir (snd mixed) (base (fst mixed)) = Ok fis
       /\ Permutation mixed_idle
            (parsed_keys (parse_idle ".meta" "gen" (fst mixed)) fis)
       /\ forall fi, In fi fis ->
            exists r, parse_idle ".meta" "gen" (fst mixed) fi = Ok r.
Proof.
  assert (Hl : ListIdleSnap ".meta" "gen" mixed = Ok mixed_idle)
    by (vm_compute; reflexivity).
  split; [exact Hl|].
  exact (ListIdleSnap_lists_every_idle_file ".meta" "gen" mixed mixed_idle Hl).
Defined.

Lemma malformed_meta_name_fails_listing_witness :
  over_quota malformed
  /\ exists e,
       ListIdleSnap ".meta" "gen" malformed = Err e
       /\ (over_quota malformed ->
           GetSnapshotForBuilding ".meta" "gen" key7 malformed = (Err e, malformed)).
Proof.
  split; [vm_compute; reflexivity|].
  apply (malformed_meta_name_fails_listing ".meta" "gen" malformed
           (map mf_info (snd malformed)) (mkFileInfo "gen_2_1.meta" false 16 20) key7);
    [reflexivity | right; right; left; reflexivity | reflexivity | reflexivity
     | vm_compute; lia].
Defined.

Lemma eviction_without_candidates_fails_witness :
  over_quota receiving_only
  /\ deleteOldIdleSnaps ".meta" "gen" receiving_only
     = (Some (Errorf "too many snapshots"), receiving_only)
  /\ GetSnapshotForBuilding ".meta" "gen" key7 receiving_only
     = (Err (Errorf "too many snapshots"), receiving_only).
Proof.
  assert (Hover : over_quota receiving_only) by (vm_compute; reflexivity).
  split; [exact Hover|].
  apply (eviction_without_candidates_fails ".meta" "gen" receiving_only
           [mkSnapKeyWithSending key1 false] key7 Hover);
    [vm_compute; reflexivity|].
  intros k [<-|[]]. left. reflexivity.
Defined.

Lemma init_cleans_and_counts_witness :
  init ".tmp" ".sst" restart = (None, restart_after).
Proof.
  exact (init_cleans_and_counts ".tmp" ".sst" restart
           (mkFileInfo "snap" true 0 0) (map mf_info (snd restart)) (snd restart_after)
           eq_refl eq_refl eq_refl
           ltac:(crunch) ltac:(vm_compute; reflexivity)).
Defined.

Lemma SnapEntry_String_names_witness :
  In SnapEntrySending [SnapEntryGenerating; SnapEntrySending;
                       SnapEntryReceiving; SnapEntryApplying]
  /\ (SnapEntry_String SnapEntrySending = SnapEntry_String 2 -> SnapEntrySending = 2)
  /\ (SnapEntry_String 7 = "unknown"
      <-> ~ In 7 [SnapEntryGenerating; SnapEntrySending;
                  SnapEntryReceiving; SnapEntryApplying]).
Proof.
  assert (Hin : In SnapEntrySending [SnapEntryGenerating; SnapEntrySending;
                                     SnapEntryReceiving; SnapEntryApplying])
    by (right; left; reflexivity).
  split; [exact Hin|]. split.
  - exact (proj2 (SnapEntry_String_names SnapEntrySending 2) Hin).
  - exact (proj1 (SnapEntry_String_names 7 7)).
Defined.

Lemma ListIdleSnap_entries_well_formed_witness :
  ListIdleSnap ".meta" "gen" mixed = Ok mixed_idle
  /\ In (mkSnapKeyWithSending (mkSnapKey 5 2 3) false) mixed_idle
  /\ 0 <= 5 <= MaxUint64.
Proof.
  assert (Hl : ListIdleSnap ".meta" "gen" mixed = Ok mixed_idle)
    by (vm_compute; reflexivity).
  assert (Hin : In (mkSnapKeyWithSending (mkSnapKey 5 2 3) false) mixed_idle)
    by (right; right; left; reflexivity).
  split; [exact Hl|]. split; [exact Hin|].
  exact (proj1 (proj1 (ListIdleSnap_entries_well_formed ".meta" "gen" mixed
                         mixed_idle _ Hl Hin))).
Defined.

Lemma Encode_injective_witness :
  (0 <= 7 < 2 ^ 56 /\ is_uint8 TypeValue /\ 0 <= 5 < 2 ^ 56)
  /\ Encode BigEndian (mkInternalKey user_a 7 TypeValue)
     <> Encode BigEndian (mkInternalKey user_a 5 TypeValue).
Proof.
  assert (H7 : 0 <= 7 < 2 ^ 56) by lia.
  assert (H5 : 0 <= 5 < 2 ^ 56) by lia.
  assert (Hv : is_uint8 TypeValue) by (unfold is_uint8, TypeValue; lia).
  split; [auto|].
  intros Heq.
  pose proof (Encode_injective BigEndian (mkInternalKey user_a 7 TypeValue)
                (mkInternalKey user_a 5 TypeValue) H7 Hv H5 Hv Heq) as Hk.
  discriminate Hk.
Defined.

End Concrete2.

(** ** Ordering of internal keys, and a start-up scan that fails *)

Section OrderMore.

Import Manager MoreSpec.

Variable rocksEndian : ByteOrder.

(** X24. [CompareInternalKey] is transitive wherever the comparator is: for
    three keys of at least eight bytes on whose user-key parts the comparator
    is transitive, if the first key sorts before the second and the second
    before the third, the first sorts before the third. *)
Theorem CompareInternalKey_transitive (c : Comparator) key1 key2 key3 r12 r23 :
  let u1 := take (length key1 - 8) key1 in
  let u2 := take (length key2 - 8) key2 in
  let u3 := take (length key3 - 8) key3 in
  (8 <= length key1)%nat -> (8 <= length key2)%nat -> (8 <= length key3)%nat ->
  (c u1 u2 <= 0 -> c u2 u3 <= 0 -> c u1 u3 <= 0) ->
  (c u1 u2 <= 0 -> c u2 u3 <= 0 -> c u1 u3 = 0 -> c u1 u2 = 0 /\ c u2 u3 = 0) ->
  CompareInternalKey rocksEndian c key1 key2 = Some r12 -> r12 < 0 ->
  CompareInternalKey rocksEndian c key2 key3 = Some r23 -> r23 < 0 ->
  exists r13, CompareInternalKey rocksEndian c key1 key3 = Some r13 /\ r13 < 0.
Proof.
  intros u1 u2 u3 L1 L2 L3 Htrans Hstrict.
  rewrite (CompareInternalKey_long rocksEndian c key1 key2 L1 L2),
          (CompareInternalKey_long rocksEndian c key2 key3 L2 L3),
          (CompareInternalKey_long rocksEndian c key1 key3 L1 L3). cbn zeta.
  fold u1 u2 u3.
  set (n1 := Uint64 rocksEndian (drop (length key1 - 8) key1)).
  set (n2 := Uint64 rocksEndian (drop (length key2 - 8) key2)).
  set (n3 := Uint64 rocksEndian (drop (length key3 - 8) key3)).
  intros H12 Hr12 H23 Hr23.
  assert (A12 : c u1 u2 < 0 \/ (c u1 u2 = 0 /\ n1 > n2)).
  { destruct (Z.eqb_spec (c u1 u2) 0) as [E|E].
    - right. split; [exact E|].
      destruct (Z.gtb_spec n1 n2); [lia|].
      destruct (Z.ltb_spec n1 n2); injection H12 as <-; lia.
    - left. injection H12 as <-. exact Hr12. }
  assert (A23 : c u2 u3 < 0 \/ (c u2 u3 = 0 /\ n2 > n3)).
  { destruct (Z.eqb_spec (c u2 u3) 0) as [E|E].
    - right. split; [exact E|].
      destruct (Z.gtb_spec n2 n3); [lia|].
      destruct (Z.ltb_spec n2 n3); injection H23 as <-; lia.
    - left. injection H23 as <-. exact Hr23. }
  assert (Hle : c u1 u3 <= 0) by (apply Htrans; lia).
  destruct (Z.eqb_spec (c u1 u3) 0) as [E13|E13].
  - destruct (Hstrict ltac:(lia) ltac:(lia) E13) as [E12 E23].
    destruct (Z.gtb_spec n1 n3); [|lia].
    exists (-1). split; [reflexivity | lia].
  - exists (c u1 u3). split; [reflexivity | lia].
Qed.

End OrderMore.

Section InitFailure.

Import Manager MoreSpec.

Context `{DirIO}.
Variables tmpFileSuffix sstFileSuffix : string.

Lemma init_loop_app pre post (w : World) :
  init_loop tmpFileSuffix sstFileSuffix (pre ++ post) w
  = match init_loop tmpFileSuffix sstFileSuffix pre w with
    | (None, w') => init_loop tmpFileSuffix sstFileSuffix post w'
    | (Some e, w') => (Some e, w')
    end.
Proof.
  revert w. induction pre as [|fi rest IH]; intros w; cbn [app init_loop].
  - reflexivity.
  - destruct (negb (IsDir fi)); [|apply IH].
    destruct (HasSuffix (Name fi) tmpFileSuffix).
    + destruct (Remove _ _); [apply IH | reflexivity].
    + destruct (HasSuffix (Name fi) sstFileSuffix); apply IH.
Qed.

(** X25. [init] stops at the first temporary file it cannot remove and
    returns that error: the temporary files before it are gone, the data
    files before it are already counted, and nothing after it is looked at,
    so the size counter may be left partly accumulated. *)
Theorem init_stops_at_failing_removal (w : World) fi0 pre fi post d1 e :
  Stat (snd w) (base (fst w)) = StatOk fi0 ->
  IsDir fi0 = true ->
  ReadDir (snd w) (base (fst w)) = Ok (pre ++ fi :: post) ->
  - 2 ^ 63 <= snapSize (fst w) < 2 ^ 63 ->
  remove_all (base (fst w)) (List.filter (is_tmp_file tmpFileSuffix) pre) (snd w)
  = Ok d1 ->
  is_tmp_file tmpFileSuffix fi = true ->
  Remove d1 (filepath_Join (base (fst w)) (Name fi)) = Err e ->
  init tmpFileSuffix sstFileSuffix w
  = (Some e,
     (set_snapSize (fst w)
        (wrap_int64
           (snapSize (fst w)
            + total_size
                (List.filter (is_counted_file tmpFileSuffix sstFileSuffix) pre))),
      d1)).
Proof.
  intros Hst Hdir Hrd Hrange Hrm Htmp Hfail. unfold init.
  rewrite Hst, Hdir, Hrd. cbn [negb].
  rewrite init_loop_app, (init_loop_counts _ _ pre w d1 Hrange Hrm).
  cbn [init_loop fst snd base set_snapSize].
  unfold is_tmp_file in Htmp. apply andb_true_iff in Htmp as [Hd Hs].
  rewrite Hd, Hs, Hfail. reflexivity.
Qed.

End InitFailure.

Section Concrete3.

Import MemDisk Scenario Manager MoreSpec Scenario2.
Local Open Scope string_scope.

Lemma CompareInternalKey_transitive_witness :
  exists r13,
    CompareInternalKey LittleEndian bytes_Compare
      (Encode LittleEndian (mkInternalKey user_a 7 TypeValue))
      (Encode LittleEndian (mkInternalKey [Byte.x62] 9 TypeValue)) = Some r13
    /\ r13 < 0.
Proof.
  apply (CompareInternalKey_transitive LittleEndian bytes_Compare
           (Encode LittleEndian (mkInternalKey user_a 7 TypeValue))
           (Encode LittleEndian (mkInternalKey user_a 5 TypeValue))
           (Encode LittleEndian (mkInternalKey [Byte.x62] 9 TypeValue))
           (-1) (-1));
    [ vm_compute; lia | vm_compute; lia | vm_compute; lia
    | vm_compute; intros _ _ Hc; discriminate Hc
    | vm_compute; intros _ _ Hc; discriminate Hc
    | vm_compute; reflexivity | lia
    | vm_compute; reflexivity | lia ].
Defined.

Lemma init_stops_at_failing_removal_witness :
  @init mem_io read_only_dir ".tmp" ".sst" restart
  = (Some (ErrOS "remove" "snap/gen_2_1_1_default.sst.tmp"),
     (set_snapSize (fst restart) 100, snd restart)).
Proof.
  exact (@init_stops_at_failing_removal mem_io read_only_dir ".tmp" ".sst" restart
           (mkFileInfo "snap" true 0 0)
           [ mkFileInfo "gen_1_1_1.meta" false 16 10;
             mkFileInfo "gen_1_1_1_default.sst" false 100 10 ]
           (mkFileInfo "gen_2_1_1_default.sst.tmp" false 70 20)
           [ mkFileInfo "rev_3_1_1_default.sst" false 50 30;
             mkFileInfo "LOCK" false 0 5 ]
           (snd restart) (ErrOS "remove" "snap/gen_2_1_1_default.sst.tmp")
           eq_refl eq_refl eq_refl ltac:(vm_compute; split; [discriminate | reflexivity])
           eq_refl eq_refl eq_refl).
Defined.

End Concrete3.
